(** * JuliaInterface: the GAP <-> Julia bridge of [src/JuliaInterface.c]

    A shallow embedding of the anchor table ([GAP_MEMORY_STORAGE] and
    [GAP_MEMORY_STORAGE_INTS]), of the two handle kinds, and of the
    recursive converters [JuliaBox_internal] and [JuliaUnbox_internal],
    followed by the properties of these functions.

    Platform: a 64-bit build, where C [int] has 32 bits and GAP's [Int]
    and Julia's [Int64] have 64 bits.  Conversions to a narrower signed
    type and [int] addition are written with two's-complement
    wrap-around ([sint]). *)

From Stdlib Require Import ZArith String Ascii List Lia.
From Stdlib Require Import Floats.SpecFloat.
From stdpp Require Import base tactics option list gmap.

Local Open Scope Z_scope.
Local Set Warnings "-register-all".

(** ** Machine integers *)

(** The signed value of the low [w] bits of [x]. *)
Definition sint (w : Z) (x : Z) : Z :=
  (x + 2 ^ (w - 1)) mod 2 ^ w - 2 ^ (w - 1).

(** ** Guest (Julia) values *)

Inductive jl_datatype : Set :=
| jl_int64_type | jl_int32_type | jl_int16_type | jl_int8_type
| jl_uint64_type | jl_uint32_type | jl_uint16_type | jl_uint8_type
| jl_float64_type | jl_float32_type
| jl_string_type
| jl_bool_type
| jl_nothing_type
| jl_any_type
| jl_array_typename (eltype : jl_datatype) (ndims : nat)
| jl_other_type (id : nat).

(** A [jl_value_t*].  [NULL] is the null pointer: what [jl_call] gives
    back when the callee raised, an unassigned cell of an array of
    references, and the [0] that [JuliaBox_internal] returns.  A boxed
    primitive carries the value of its C type; a string carries its
    bytes; an array carries its element type, its number of
    dimensions, and its cells in linear (column-major) order. *)
Inductive jl_value : Type :=
| NULL
| jl_int64 (x : Z) | jl_int32 (x : Z) | jl_int16 (x : Z) | jl_int8 (x : Z)
| jl_uint64 (x : Z) | jl_uint32 (x : Z) | jl_uint16 (x : Z) | jl_uint8 (x : Z)
| jl_float64 (x : spec_float) | jl_float32 (x : spec_float)
| jl_string (data : string)
| jl_bool (x : bool)
| jl_nothing
| jl_array (eltype : jl_datatype) (ndims : nat) (data : list jl_value)
| jl_other (id : nat).

Definition jl_typeof (v : jl_value) : option jl_datatype :=
  match v with
  | NULL => None
  | jl_int64 _ => Some jl_int64_type
  | jl_int32 _ => Some jl_int32_type
  | jl_int16 _ => Some jl_int16_type
  | jl_int8 _ => Some jl_int8_type
  | jl_uint64 _ => Some jl_uint64_type
  | jl_uint32 _ => Some jl_uint32_type
  | jl_uint16 _ => Some jl_uint16_type
  | jl_uint8 _ => Some jl_uint8_type
  | jl_float64 _ => Some jl_float64_type
  | jl_float32 _ => Some jl_float32_type
  | jl_string _ => Some jl_string_type
  | jl_bool _ => Some jl_bool_type
  | jl_nothing => Some jl_nothing_type
  | jl_array t n _ => Some (jl_array_typename t n)
  | jl_other id => Some (jl_other_type id)
  end.

(** [jl_is_array] compares the type name only: it holds for an array
    of any number of dimensions. *)
Definition jl_is_array (v : jl_value) : bool :=
  match jl_typeof v with
  | Some (jl_array_typename _ _) => true
  | _ => false
  end.


Definition jl_box_int64 (x : Z) : jl_value := jl_int64 x.
Definition jl_box_uint16 (x : Z) : jl_value := jl_uint16 x.
Definition jl_box_uint32 (x : Z) : jl_value := jl_uint32 x.
Definition jl_box_float64 (x : spec_float) : jl_value := jl_float64 x.
Definition jl_box_bool (x : Z) : jl_value := jl_bool (negb (x =? 0)).
Definition jl_unbox_bool (x : bool) : Z := if x then 1 else 0.

(** The bytes a C reader sees at a [char*]: up to the first NUL. *)
Fixpoint c_str (data : string) : string :=
  match data with
  | EmptyString => EmptyString
  | String c rest =>
      if Ascii.eqb c Ascii.zero then EmptyString else String c (c_str rest)
  end.

(** [jl_cstr_to_string] copies [strlen] bytes: it takes a C string. *)
Definition jl_cstr_to_string (cstr : string) : jl_value := jl_string cstr.

(** [jl_alloc_array_1d]: a fresh one-dimensional array; its cells are
    all written before the array is used. *)
Definition jl_alloc_array_1d (eltype : jl_datatype) (len : nat) : list jl_value :=
  replicate len NULL.

(** [jl_arrayset(a, rhs, i)], zero-based. *)
Definition jl_arrayset (a : list jl_value) (rhs : jl_value) (i : nat) : list jl_value :=
  <[i := rhs]> a.

(** C's conversion of a [float] to a [double]; exact. *)
Definition double_of_float (x : spec_float) : spec_float :=
  match x with
  | S754_finite s m e => binary_round 53 1024 s m e
  | _ => x
  end.

(** ** Julia's array primitives, as reached through [jl_call]

    [jl_call] catches what the callee raises and returns [NULL]; the
    array is then as it was. *)

(** [pop!]: removes and gives the last element; raises on an empty
    array ([None]). *)
Definition julia_array_pop {A} (a : list A) : option (A * list A) :=
  match last a with
  | Some x => Some (x, take (length a - 1)%nat a)
  | None => None
  end.

(** [push!]: appends at the end. *)
Definition julia_array_push {A} (a : list A) (x : A) : list A := a ++ [x].

(** [getindex], one-based. *)
Definition julia_array_getindex {A} (a : list A) (i : Z) : option A :=
  if bool_decide (1 <= i <= Z.of_nat (length a)) then a !! Z.to_nat (i - 1)
  else None.

(** [setindex!], one-based; raises a [BoundsError] out of range, which
    [jl_call3] swallows. *)
Definition julia_array_setindex {A} (a : list A) (x : A) (i : Z) : list A :=
  if bool_decide (1 <= i <= Z.of_nat (length a)) then <[Z.to_nat (i - 1) := x]> a
  else a.

(** ** Host (GAP) objects *)

(** An [Obj].  [NullObj] is [(Obj)0]: an unbound list entry, and the
    "no value" a kernel function returns.  [IntObj n] is the immediate
    integer that [INT_INTOBJ] reads as [n].  [JuliaObj p pos] is a
    [T_JULIA_OBJ] bag: word 0 is the guest reference, word 1 the boxed
    [Int64] that [get_next_julia_position] returned, kept by its value.
    [PList] is the plain-list representation, [StringObj] the string
    representation, [CharObj] a character ([T_CHAR]); [OtherObj] is
    an object of any other type, one that is not a list.  The tests
    [IS_INTOBJ], [IS_MACFLOAT], [TNUM_OBJ] and [IS_PLIST] of
    [JuliaBox_internal] are tests of the representation, each object
    having one; [IS_STRING] is not, see below. *)
Inductive Obj : Type :=
| NullObj
| IntObj (n : Z)
| LargeInt (n : Z)
| MacFloat (x : spec_float)
| StringObj (data : string)
| GAP_True | GAP_False | Fail
| Perm2 (pts : list Z)
| Perm4 (pts : list Z)
| PList (elts : list Obj)
| JuliaFuncObj (f : jl_value)
| JuliaObj (p : jl_value) (pos : Z)
| OtherObj (tnum : nat)
| CharObj (c : ascii).

(** [TNUM_OBJ(o) == T_CHAR]. *)
Definition IS_CHAR (o : Obj) : bool :=
  match o with CharObj _ => true | _ => false end.

(** GAP's [IS_STRING] (GAP's stringobj.c, which is not part of this
    repository): it holds of the string representation, and of a list
    every entry of which is a bound character, so of the empty plain
    list too. *)
Definition IS_STRING (obj : Obj) : bool :=
  match obj with
  | StringObj _ => true
  | PList elts => forallb IS_CHAR elts
  | _ => false
  end.

(** [ADDR_OBJ(o)[0]] as a guest reference: word 0 of a handle of
    either kind.  [GET_JULIA_FUNC] and [GET_JULIA_OBJ] are both this
    read; on any other object the word is not a guest reference
    ([None]). *)
Definition ADDR_OBJ_0 (o : Obj) : option jl_value :=
  match o with
  | JuliaFuncObj f => Some f
  | JuliaObj p _ => Some p
  | _ => None
  end.

(** GAP's [INTOBJ_INT(i)] is [((UInt)(Int)(i) << 2) + 0x01], and
    [INT_INTOBJ(o)] is [(Int)(o) >> 2] (GAP's objects.h, which is not
    part of this repository): 62 bits of [i] survive. *)
Definition INTOBJ_INT (i : Z) : Obj :=
  IntObj (Z.shiftr (sint 64 (Z.shiftl i 2 + 1)) 2).

Definition NEW_MACFLOAT (x : spec_float) : Obj := MacFloat x.

(** [C_NEW_STRING(s, len, data)]: a string of [len] bytes. *)
Definition C_NEW_STRING (len : nat) (data : string) : Obj :=
  StringObj (String.substring 0 len data).

(** [CSTR_STRING] gives the address of the characters; its users here
    read a C string from it. *)
Definition CSTR_STRING (data : string) : string := c_str data.

Definition NEW_PLIST (len : nat) : list Obj := replicate len NullObj.

(** [SET_ELM_PLIST(list, pos, val)], one-based. *)
Definition SET_ELM_PLIST (l : list Obj) (pos : nat) (val : Obj) : list Obj :=
  <[(pos - 1)%nat := val]> l.

(** ** The converters *)

(** The [for (i = 0; i < len; i++)] loops of the converters.  [rest]
    is the source sequence from cell [i] on, so that its head is the
    cell read in iteration [i]; [store out y i] is the write of that
    iteration; a [body] that does not return ends the loop. *)
Definition for_loop {A B} (body : A -> option B)
    (store : list B -> B -> nat -> list B)
    : list A -> nat -> list B -> option (list B) :=
  fix loop (rest : list A) (i : nat) (out : list B) : option (list B) :=
    match rest with
    | [] => Some out
    | x :: rest' =>
        match body x with
        | None => None
        | Some y => loop rest' (S i) (store out y i)
        end
    end.

(** [JuliaUnbox_internal].  [None]: the call does not return, because
    it reads the type tag of a null reference. *)
Fixpoint JuliaUnbox_internal (julia_obj : jl_value) : option Obj :=
  match julia_obj with
  | NULL => None
  (* small int *)
  | jl_int64 x => Some (INTOBJ_INT x)
  | jl_int32 x => Some (INTOBJ_INT x)
  | jl_int16 x => Some (INTOBJ_INT x)
  | jl_int8 x => Some (INTOBJ_INT x)
  | jl_uint64 x => Some (INTOBJ_INT x)
  | jl_uint32 x => Some (INTOBJ_INT x)
  | jl_uint16 x => Some (INTOBJ_INT x)
  | jl_uint8 x => Some (INTOBJ_INT x)
  (* float *)
  | jl_float64 x => Some (NEW_MACFLOAT x)
  | jl_float32 x => Some (NEW_MACFLOAT (double_of_float x))
  (* string *)
  | jl_string data => Some (C_NEW_STRING (String.length data) data)
  (* bool *)
  | jl_bool x => if jl_unbox_bool x =? 0 then Some GAP_False else Some GAP_True
  (* array (1-dim) *)
  | jl_array _ _ data =>
      let len := length data in
      let return_list := NEW_PLIST len in
      match
        for_loop JuliaUnbox_internal
          (fun return_list current_element i =>
             SET_ELM_PLIST return_list (i + 1) current_element)
          data 0%nat return_list
      with
      | None => None
      | Some return_list => Some (PList return_list)
      end
  | jl_nothing | jl_other _ => Some Fail
  end.

(** [JuliaUnbox]: [GET_JULIA_OBJ] reads word 0 of the handle, of
    either kind. *)
Definition JuliaUnbox (obj : Obj) : option Obj :=
  match ADDR_OBJ_0 obj with
  | Some julia_obj => JuliaUnbox_internal julia_obj
  | None => None
  end.

(** ** The anchor table *)

(** The two guest arrays: [GAP_MEMORY_STORAGE] (a [Vector{Any}]) and
    [GAP_MEMORY_STORAGE_INTS] (a [Vector{Int64}], the free list, whose
    last element is the next index handed out). *)
Record anchor_table : Type := mk_table {
  GAP_MEMORY_STORAGE : list jl_value;
  GAP_MEMORY_STORAGE_INTS : list Z
}.

(** A computation on the anchor table; [None] when it does not return. *)
Definition M (A : Type) : Type := anchor_table -> option (A * anchor_table).

#[global] Instance M_ret : MRet M := fun A x st => Some (x, st).
#[global] Instance M_bind : MBind M := fun A B f m st =>
  match m st with
  | Some (x, st') => f x st'
  | None => None
  end.

(** [jl_unbox_int64(jl_call1(julia_array_pop, GAP_MEMORY_STORAGE_INTS))]:
    reads through the [NULL] that an empty free list gives. *)
Definition pop_GAP_MEMORY_STORAGE_INTS : M Z := fun st =>
  match julia_array_pop (GAP_MEMORY_STORAGE_INTS st) with
  | Some (position_jl, ints) =>
      Some (position_jl, mk_table (GAP_MEMORY_STORAGE st) ints)
  | None => None
  end.

Definition length_GAP_MEMORY_STORAGE_INTS : M Z := fun st =>
  Some (Z.of_nat (length (GAP_MEMORY_STORAGE_INTS st)), st).

Definition push_GAP_MEMORY_STORAGE (x : jl_value) : M unit := fun st =>
  Some (tt, mk_table (julia_array_push (GAP_MEMORY_STORAGE st) x)
                     (GAP_MEMORY_STORAGE_INTS st)).

Definition push_GAP_MEMORY_STORAGE_INTS (x : Z) : M unit := fun st =>
  Some (tt, mk_table (GAP_MEMORY_STORAGE st)
                     (julia_array_push (GAP_MEMORY_STORAGE_INTS st) x)).

(** [jl_call3(julia_array_setindex, GAP_MEMORY_STORAGE, x, i)]; a null
    argument is read by the dispatcher. *)
Definition setindex_GAP_MEMORY_STORAGE (x : jl_value) (i : Z) : M unit := fun st =>
  match x with
  | NULL => None
  | _ => Some (tt, mk_table (julia_array_setindex (GAP_MEMORY_STORAGE st) x i)
                            (GAP_MEMORY_STORAGE_INTS st))
  end.

Definition get_next_julia_position : M Z :=
  position_jl ← pop_GAP_MEMORY_STORAGE_INTS;
  let position := sint 32 position_jl in
  len ← length_GAP_MEMORY_STORAGE_INTS;
  if len =? 0 then
    _ ← push_GAP_MEMORY_STORAGE (jl_box_int64 0);
    let new_position_jl := sint 32 (position + 1) in
    _ ← push_GAP_MEMORY_STORAGE_INTS new_position_jl;
    mret position_jl
  else mret position_jl.

Definition NewJuliaObj (C : jl_value) : M Obj :=
  input_position_jl ← get_next_julia_position;
  _ ← setindex_GAP_MEMORY_STORAGE C input_position_jl;
  mret (JuliaObj C input_position_jl).

(** The finaliser, which GAP runs on [T_JULIA_OBJ] bags only. *)
Definition JuliaObjFreeFunc (val : Obj) : M unit :=
  match val with
  | JuliaObj _ list_number =>
      _ ← setindex_GAP_MEMORY_STORAGE (jl_box_int64 0) list_number;
      push_GAP_MEMORY_STORAGE_INTS list_number
  | _ => fun _ => None
  end.

(** The table after [InitKernel]: [GAP_MEMORY_STORAGE = [ ]] and
    [GAP_MEMORY_STORAGE_INTS = [ 1 ]]. *)
Definition InitKernel : anchor_table := mk_table [] [1].

Section Layout.

(** The bytes that a C reader finds at the address [CSTR_STRING] gives
    for a plain list with these entries: the bag of a plain list holds
    references where a string holds characters, so these are bytes of
    references and of what lies behind the bag.  They depend on where
    GAP has put its objects, and are left open. *)
Variable bag_chars : list Obj -> string.

(** [JuliaBox_internal].  [Some NULL] is the returned [0].  [None]:
    the call does not return, because [TNUM_OBJ] reads the header of a
    null reference.  The test [IS_STRING] comes before [IS_PLIST]: a
    plain list of which it holds takes the string branch. *)
Fixpoint JuliaBox_internal (obj : Obj) : option jl_value :=
  match obj with
  | NullObj => None
  (* integer, small and large *)
  | IntObj n => Some (jl_box_int64 n)
  (* float *)
  | MacFloat x => Some (jl_box_float64 x)
  (* string *)
  | StringObj data => Some (jl_cstr_to_string (CSTR_STRING data))
  (* bool *)
  | GAP_True => Some (jl_box_bool 1)
  | GAP_False => Some (jl_box_bool 0)
  (* perm *)
  | Perm2 perm_array =>
      let new_perm_array := jl_alloc_array_1d jl_uint16_type (length perm_array) in
      match
        for_loop (fun pt => Some (jl_box_uint16 pt)) jl_arrayset
          perm_array 0%nat new_perm_array
      with
      | None => None
      | Some new_perm_array => Some (jl_array jl_uint16_type 1 new_perm_array)
      end
  | Perm4 perm_array =>
      let new_perm_array := jl_alloc_array_1d jl_uint32_type (length perm_array) in
      match
        for_loop (fun pt => Some (jl_box_uint32 pt)) jl_arrayset
          perm_array 0%nat new_perm_array
      with
      | None => None
      | Some new_perm_array => Some (jl_array jl_uint32_type 1 new_perm_array)
      end
  | PList elts =>
      (* string *)
      if IS_STRING (PList elts) then
        Some (jl_cstr_to_string (CSTR_STRING (bag_chars elts)))
      (* plist *)
      else
        let len := length elts in
        let new_array := jl_alloc_array_1d jl_any_type len in
        match for_loop JuliaBox_internal jl_arrayset elts 0%nat new_array with
        | None => None
        | Some new_array => Some (jl_array jl_any_type 1 new_array)
        end
  | LargeInt _ | Fail | JuliaFuncObj _ | JuliaObj _ _ | OtherObj _ | CharObj _ =>
      Some NULL
  end.

Definition JuliaBox (obj : Obj) : M Obj := fun st =>
  match JuliaBox_internal obj with
  | None => None
  | Some julia_ptr =>
      match julia_ptr with
      | NULL => Some (Fail, st)
      | _ => NewJuliaObj julia_ptr st
      end
  end.

Section Eval.

(** The guest's evaluator: the value of the source, [NULL] when the
    evaluation raised, and the two anchor arrays as the evaluation
    left them (both are globals of [Main], within reach of the
    source). *)
Variable jl_eval_string : string -> anchor_table -> jl_value * anchor_table.


End Eval.

(** ** Runs of the program *)

(** Any sequence of calls on the anchor table: [allocate_slot] is
    [get_next_julia_position], [release p i] is the finaliser run on a
    handle whose two words are [p] and [i]. *)
Inductive anchor_call : Type :=
| allocate_slot
| release (p : jl_value) (list_number : Z).

Definition do_call (c : anchor_call) : M unit :=
  match c with
  | allocate_slot => _ ← get_next_julia_position; mret tt
  | release p list_number => JuliaObjFreeFunc (JuliaObj p list_number)
  end.

Fixpoint run_calls (calls : list anchor_call) : M unit :=
  match calls with
  | [] => mret tt
  | c :: calls' => _ ← do_call c; run_calls calls'
  end.

(** The anchor table together with the value handles that GAP has not
    collected yet, newest first. *)
Record world : Type := mk_world {
  table : anchor_table;
  live : list Obj
}.

(** What happens to the table under the discipline of the bridge: a
    handle is made for a guest value, or GAP's collector finalises the
    [k]-th live handle, once. *)
Inductive host_event : Type :=
| ev_NewJuliaObj (C : jl_value)
| ev_collect (k : nat).

Definition do_event (e : host_event) (w : world) : option world :=
  match e with
  | ev_NewJuliaObj C =>
      match NewJuliaObj C (table w) with
      | Some (o, st') => Some (mk_world st' (o :: live w))
      | None => None
      end
  | ev_collect k =>
      match live w !! k with
      | Some val =>
          match JuliaObjFreeFunc val (table w) with
          | Some (_, st') => Some (mk_world st' (delete k (live w)))
          | None => None
          end
      | None => None
      end
  end.

Fixpoint run_events (es : list host_event) (w : world) : option world :=
  match es with
  | [] => Some w
  | e :: es' =>
      match do_event e w with
      | Some w' => run_events es' w'
      | None => None
      end
  end.

Definition init_world : world := mk_world InitKernel [].

Definition INT_MAX : Z := 2147483647.

(** Storage is short enough for the next index and its successor to be
    C [int]s. *)
Definition fits_int (st : anchor_table) : Prop :=
  Z.of_nat (length (GAP_MEMORY_STORAGE st)) < INT_MAX.

(** The indices of storage that are not on the free list. *)
Definition occupied (st : anchor_table) : gset Z :=
  list_to_set (seqZ 1 (Z.of_nat (length (GAP_MEMORY_STORAGE st))))
    ∖ list_to_set (GAP_MEMORY_STORAGE_INTS st).

Definition handle_pos (o : Obj) : Z :=
  match o with JuliaObj _ pos => pos | _ => 0 end.

Definition GET_JULIA_OBJ (o : Obj) : jl_value :=
  match o with JuliaObj p _ => p | _ => NULL end.

(** ** The vocabulary of the specification *)

Definition length_GAP_MEMORY_STORAGE : M Z := fun st =>
  Some (Z.of_nat (length (GAP_MEMORY_STORAGE st)), st).

(** [allocate_slot] in the words of the specification: pop; if the
    free list is then empty, extend storage by one sentinel and push
    the new storage length; return the popped index. *)
Definition allocate_slot_spec : M Z :=
  position ← pop_GAP_MEMORY_STORAGE_INTS;
  len ← length_GAP_MEMORY_STORAGE_INTS;
  if len =? 0 then
    _ ← push_GAP_MEMORY_STORAGE (jl_box_int64 0);
    new_length ← length_GAP_MEMORY_STORAGE;
    _ ← push_GAP_MEMORY_STORAGE_INTS new_length;
    mret position
  else mret position.

(** The mathematical value of a guest integer, with the bounds of its
    type. *)
Definition jl_integer (v : jl_value) : option (Z * (Z * Z)) :=
  match v with
  | jl_int64 x => Some (x, (- 2 ^ 63, 2 ^ 63))
  | jl_int32 x => Some (x, (- 2 ^ 31, 2 ^ 31))
  | jl_int16 x => Some (x, (- 2 ^ 15, 2 ^ 15))
  | jl_int8 x => Some (x, (- 2 ^ 7, 2 ^ 7))
  | jl_uint64 x => Some (x, (0, 2 ^ 64))
  | jl_uint32 x => Some (x, (0, 2 ^ 32))
  | jl_uint16 x => Some (x, (0, 2 ^ 16))
  | jl_uint8 x => Some (x, (0, 2 ^ 8))
  | _ => None
  end.

(** GAP's immediate integers: [INT_INTOBJ_MIN .. INT_INTOBJ_MAX]. *)
Definition small_int (n : Z) : Prop := - 2 ^ 60 <= n < 2 ^ 60.

(** The host values of the round trip: immediate integers, floats,
    strings without a NUL byte, the two booleans, and plain lists of
    such values of which [IS_STRING] does not hold, that is, which
    are not empty. *)
Fixpoint supported (obj : Obj) : bool :=
  match obj with
  | IntObj n => bool_decide (small_int n)
  | MacFloat _ => true
  | StringObj data => String.eqb (c_str data) data
  | GAP_True | GAP_False => true
  | PList elts => negb (IS_STRING (PList elts)) && forallb supported elts
  | _ => false
  end.

(** The host values [JuliaBox] converts, by representation. *)
Definition boxable (obj : Obj) : bool :=
  match obj with
  | IntObj _ | MacFloat _ | StringObj _ | GAP_True | GAP_False
  | Perm2 _ | Perm4 _ | PList _ => true
  | _ => false
  end.

(** The guest values the specification has [JuliaUnbox_internal]
    convert: integers up to 64 bits, floats, strings, booleans and
    one-dimensional arrays. *)
Definition unboxable (v : jl_value) : bool :=
  match v with
  | jl_int64 _ | jl_int32 _ | jl_int16 _ | jl_int8 _
  | jl_uint64 _ | jl_uint32 _ | jl_uint16 _ | jl_uint8 _
  | jl_float64 _ | jl_float32 _ | jl_string _ | jl_bool _ => true
  | jl_array _ ndims _ => bool_decide (ndims = 1%nat)
  | _ => false
  end.

(** The invariant of the anchor table: the bottom of the free list is
    the first index past the end of storage; above it lie released
    indices; released indices and the indices of the live handles are
    pairwise different and within storage; and the cell of each live
    handle holds the handle's guest value. *)
Record table_inv (w : world) : Prop := mk_table_inv {
  inv_free :
    exists released,
      GAP_MEMORY_STORAGE_INTS (table w) =
        (Z.of_nat (length (GAP_MEMORY_STORAGE (table w))) + 1) :: released /\
      NoDup (released ++ (handle_pos <$> live w)) /\
      Forall (fun i => 1 <= i <= Z.of_nat (length (GAP_MEMORY_STORAGE (table w))))
             (released ++ (handle_pos <$> live w));
  inv_live :
    Forall (fun o =>
              o = JuliaObj (GET_JULIA_OBJ o) (handle_pos o) /\
              julia_array_getindex (GAP_MEMORY_STORAGE (table w)) (handle_pos o)
                = Some (GET_JULIA_OBJ o))
           (live w)
}.

(** ** The call surface *)

Section Calls.

(** The guest's function application ([jl_call0] .. [jl_call3] apply a
    callee to their arguments): the value returned, [NULL] when the
    guest raised, and the two anchor arrays as the call left them.
    [jl_get_function] is the guest's lookup of a name in [Base]. *)
Variable jl_call :
  jl_value -> list jl_value -> anchor_table -> jl_value * anchor_table.
Variable jl_get_function : string -> jl_value.

Definition GET_JULIA_FUNC (o : Obj) : option jl_value := ADDR_OBJ_0 o.

Definition NewJuliaFunc (C : jl_value) : Obj := JuliaFuncObj C.

Definition JuliaFunction (data : string) : Obj :=
  NewJuliaFunc (jl_get_function (CSTR_STRING data)).

Definition JuliaCallFunc0Arg (func : Obj) : M Obj := fun st =>
  match GET_JULIA_FUNC func with
  | Some f =>
      let (result, st) := jl_call f [] st in NewJuliaObj result st
  | None => None
  end.

Definition JuliaCallFunc1Arg (func arg : Obj) : M Obj := fun st =>
  match GET_JULIA_FUNC func, ADDR_OBJ_0 arg with
  | Some f, Some a =>
      let (result, st) := jl_call f [a] st in NewJuliaObj result st
  | _, _ => None
  end.

Definition JuliaCallFunc2Arg (func arg1 arg2 : Obj) : M Obj := fun st =>
  match GET_JULIA_FUNC func, ADDR_OBJ_0 arg1, ADDR_OBJ_0 arg2 with
  | Some f, Some a1, Some a2 =>
      let (result, st) := jl_call f [a1; a2] st in NewJuliaObj result st
  | _, _, _ => None
  end.

Definition JuliaCallFunc3Arg (func arg1 arg2 arg3 : Obj) : M Obj := fun st =>
  match GET_JULIA_FUNC func, ADDR_OBJ_0 arg1, ADDR_OBJ_0 arg2, ADDR_OBJ_0 arg3 with
  | Some f, Some a1, Some a2, Some a3 =>
      let (result, st) := jl_call f [a1; a2; a3] st in NewJuliaObj result st
  | _, _, _, _ => None
  end.

End Calls.

(** ** Further vocabulary *)

(** A guest value that holds no null reference, at any depth. *)
Fixpoint jl_defined (v : jl_value) : bool :=
  match v with
  | NULL => false
  | jl_array _ _ data => forallb jl_defined data
  | _ => true
  end.

(** A host object that holds no unbound entry, at any depth of plain
    lists. *)
Fixpoint bound (obj : Obj) : bool :=
  match obj with
  | NullObj => false
  | PList elts => forallb bound elts
  | _ => true
  end.

(** The guest values that boxing produces from the host values of the
    round trip: [Int64] within GAP's immediate integers, [Float64],
    strings without a NUL byte, [Bool], and one-dimensional arrays of
    element type [Any] of such values that are not empty. *)
Fixpoint jl_canonical (v : jl_value) : bool :=
  match v with
  | jl_int64 x => bool_decide (small_int x)
  | jl_float64 _ => true
  | jl_string data => String.eqb (c_str data) data
  | jl_bool _ => true
  | jl_array jl_any_type 1 data =>
      match data with
      | [] => false
      | _ :: _ => forallb jl_canonical data
      end
  | _ => false
  end.

(** The bytes of a string, for statements about prefixes. *)
Definition NUL_free (data : string) : Prop :=
  Forall (fun c => c ≠ Ascii.zero) (list_ascii_of_string data).

(** The outcome of a call that found the table of [w] when it came to
    anchor [r]: a handle on [r] at the index popped from the free
    list, an index that was not occupied before and is the one index
    newly occupied after, with [r] in its cell. *)
Definition anchors_result (w : world) (out : option (Obj * anchor_table))
    (r : jl_value) : Prop :=
  exists position st',
    out = Some (JuliaObj r position, st') /\
    last (GAP_MEMORY_STORAGE_INTS (table w)) = Some position /\
    (position ∉ occupied (table w)) /\
    occupied st' = {[position]} ∪ occupied (table w) /\
    julia_array_getindex (GAP_MEMORY_STORAGE st') position = Some r.

(** Every index of the free list that lies within storage has the
    sentinel in its cell. *)
Definition free_cells_hold_sentinel (st : anchor_table) : Prop :=
  forall i,
    i ∈ GAP_MEMORY_STORAGE_INTS st ->
    1 <= i <= Z.of_nat (length (GAP_MEMORY_STORAGE st)) ->
    julia_array_getindex (GAP_MEMORY_STORAGE st) i = Some (jl_box_int64 0).

(** The handles of guest values created one after the other, the
    first at index [first], newest first, before the handles [acc]. *)
Fixpoint fresh_handles (first : Z) (Cs : list jl_value) (acc : list Obj) : list Obj :=
  match Cs with
  | [] => acc
  | C :: Cs' => fresh_handles (first + 1) Cs' (JuliaObj C first :: acc)
  end.

(** * Properties *)

(** ** Machine integers and array primitives *)

#[local] Arguments julia_array_setindex : simpl never.
#[local] Arguments julia_array_getindex : simpl never.
#[local] Arguments julia_array_push : simpl never.
#[local] Arguments sint : simpl never.

(** Side conditions on the range of a C [int]. *)
Ltac int_range := unfold fits_int, INT_MAX in *; simpl; lia.

Lemma sint32_int (x : Z) : - INT_MAX - 1 <= x <= INT_MAX -> sint 32 x = x.
Proof.
  unfold sint, INT_MAX. intros Hx.
  change (2 ^ (32 - 1)) with 2147483648. change (2 ^ 32) with 4294967296.
  rewrite Z.mod_small; lia.
Qed.

Lemma INTOBJ_INT_small (n : Z) : - 2 ^ 61 <= n < 2 ^ 61 -> INTOBJ_INT n = IntObj n.
Proof.
  intros Hn. unfold INTOBJ_INT, sint. f_equal.
  rewrite Z.shiftl_mul_pow2, Z.shiftr_div_pow2 by lia.
  change (2 ^ (64 - 1)) with 9223372036854775808.
  change (2 ^ 64) with 18446744073709551616.
  change (2 ^ 61) with 2305843009213693952 in Hn.
  change (2 ^ 2) with 4.
  rewrite Z.mod_small by lia.
  replace (n * 4 + 1 + 9223372036854775808 - 9223372036854775808) with (1 + n * 4) by lia.
  rewrite Z.div_add by lia. reflexivity.
Qed.

Lemma julia_array_pop_snoc {A} (a : list A) (x : A) :
  julia_array_pop (a ++ [x]) = Some (x, a).
Proof.
  unfold julia_array_pop. rewrite last_snoc, length_app. simpl.
  replace (length a + 1 - 1)%nat with (length a) by lia.
  by rewrite take_app_length.
Qed.

Lemma julia_array_pop_nonempty {A} (a : list A) :
  a ≠ [] -> exists a' x, a = a' ++ [x] /\ julia_array_pop a = Some (x, a').
Proof.
  destruct a as [|y a] using rev_ind; [done|]. intros _.
  exists a, y. split; [done|]. apply julia_array_pop_snoc.
Qed.

Lemma length_julia_array_setindex {A} (a : list A) (x : A) (i : Z) :
  length (julia_array_setindex a x i) = length a.
Proof.
  unfold julia_array_setindex. case_bool_decide; [apply length_insert | done].
Qed.

(** Reading a cell after [setindex!]: the written cell holds the new
    value when the index is in range, every other cell is as before. *)
Lemma julia_array_getindex_setindex {A} (a : list A) (x : A) (i j : Z) :
  julia_array_getindex (julia_array_setindex a x i) j =
  if bool_decide (j = i) then (fun _ => x) <$> julia_array_getindex a j
  else julia_array_getindex a j.
Proof.
  unfold julia_array_getindex. rewrite length_julia_array_setindex.
  unfold julia_array_setindex.
  destruct (decide (j = i)) as [->|Hji].
  - rewrite (bool_decide_true (i = i)) by done.
    case_bool_decide as Hi; [|done].
    rewrite list_lookup_insert_eq by lia.
    destruct (lookup_lt_is_Some_2 a (Z.to_nat (i - 1))) as [y ->]; [lia | done].
  - rewrite (bool_decide_false (j = i)) by done.
    case_bool_decide as Hj; [|done].
    case_bool_decide as Hi; [|done].
    rewrite list_lookup_insert_ne; [done | lia].
Qed.

Lemma julia_array_getindex_push {A} (a : list A) (x : A) (j : Z) :
  julia_array_getindex (julia_array_push a x) j =
  if bool_decide (j = Z.of_nat (length a) + 1) then Some x
  else julia_array_getindex a j.
Proof.
  unfold julia_array_getindex, julia_array_push. rewrite length_app. simpl.
  destruct (decide (j = Z.of_nat (length a) + 1)) as [->|Hj].
  - rewrite !bool_decide_true by lia.
    replace (Z.to_nat (Z.of_nat (length a) + 1 - 1)) with (length a + 0)%nat by lia.
    by rewrite lookup_app_r, Nat.add_0_r, Nat.sub_diag by lia.
  - rewrite (bool_decide_false (j = _)) by done.
    repeat case_bool_decide; try lia; [|done].
    apply lookup_app_l. lia.
Qed.

(** ** [get_next_julia_position] *)

(** What one call does, from the code alone: it pops the last index;
    when that empties the free list it appends one sentinel to storage
    and pushes the popped index plus one, computed in C [int]. *)
Lemma get_next_julia_position_snoc (st : anchor_table) (ints : list Z) (position : Z) :
  GAP_MEMORY_STORAGE_INTS st = ints ++ [position] ->
  get_next_julia_position st =
  Some (position,
        if decide (ints = []) then
          mk_table (GAP_MEMORY_STORAGE st ++ [jl_box_int64 0])
                   [sint 32 (sint 32 position + 1)]
        else mk_table (GAP_MEMORY_STORAGE st) ints).
Proof.
  intros Hints.
  unfold get_next_julia_position, mbind, M_bind, pop_GAP_MEMORY_STORAGE_INTS.
  rewrite Hints, julia_array_pop_snoc.
  unfold length_GAP_MEMORY_STORAGE_INTS. simpl.
  destruct ints as [|i ints]; simpl; [reflexivity|].
  destruct (decide (i :: ints = [])); [done | reflexivity].
Qed.

Lemma get_next_julia_position_nil (st : anchor_table) :
  GAP_MEMORY_STORAGE_INTS st = [] -> get_next_julia_position st = None.
Proof.
  intros Hints.
  unfold get_next_julia_position, mbind, M_bind, pop_GAP_MEMORY_STORAGE_INTS.
  by rewrite Hints.
Qed.

Lemma get_next_julia_position_nonempty (st : anchor_table) :
  GAP_MEMORY_STORAGE_INTS st ≠ [] ->
  exists position st',
    get_next_julia_position st = Some (position, st') /\
    GAP_MEMORY_STORAGE_INTS st' ≠ [].
Proof.
  intros Hne.
  destruct (julia_array_pop_nonempty _ Hne) as (ints & position & Hints & _).
  rewrite (get_next_julia_position_snoc _ _ _ Hints).
  eexists _, _. split; [reflexivity|].
  destruct (decide (ints = [])); simpl; [done|done].
Qed.

Lemma JuliaObjFreeFunc_eq (p : jl_value) (list_number : Z) (st : anchor_table) :
  JuliaObjFreeFunc (JuliaObj p list_number) st =
  Some (tt, mk_table
              (julia_array_setindex (GAP_MEMORY_STORAGE st) (jl_box_int64 0) list_number)
              (GAP_MEMORY_STORAGE_INTS st ++ [list_number])).
Proof. reflexivity. Qed.

(** ** [NewJuliaObj] *)

Lemma jl_value_NULL_dec (C : jl_value) : C = NULL \/ C ≠ NULL.
Proof. destruct C; auto. Qed.

Lemma NewJuliaObj_snoc (C : jl_value) (st : anchor_table) (ints : list Z) (position : Z) :
  C ≠ NULL ->
  GAP_MEMORY_STORAGE_INTS st = ints ++ [position] ->
  NewJuliaObj C st =
  Some (JuliaObj C position,
        if decide (ints = []) then
          mk_table (julia_array_setindex (GAP_MEMORY_STORAGE st ++ [jl_box_int64 0]) C position)
                   [sint 32 (sint 32 position + 1)]
        else mk_table (julia_array_setindex (GAP_MEMORY_STORAGE st) C position) ints).
Proof.
  intros HC Hints. unfold NewJuliaObj, mbind, M_bind.
  rewrite (get_next_julia_position_snoc _ _ _ Hints).
  destruct C; try done; destruct (decide (ints = [])); reflexivity.
Qed.

Lemma NewJuliaObj_NULL (st : anchor_table) : NewJuliaObj NULL st = None.
Proof.
  unfold NewJuliaObj, mbind, M_bind.
  destruct (get_next_julia_position st) as [[position st']|]; reflexivity.
Qed.

Lemma NewJuliaObj_Some (C : jl_value) (st st' : anchor_table) (o : Obj) :
  NewJuliaObj C st = Some (o, st') ->
  exists ints position,
    C ≠ NULL /\ GAP_MEMORY_STORAGE_INTS st = ints ++ [position] /\
    o = JuliaObj C position /\
    st' = if decide (ints = []) then
            mk_table (julia_array_setindex (GAP_MEMORY_STORAGE st ++ [jl_box_int64 0]) C position)
                     [sint 32 (sint 32 position + 1)]
          else mk_table (julia_array_setindex (GAP_MEMORY_STORAGE st) C position) ints.
Proof.
  intros Hnew.
  destruct (jl_value_NULL_dec C) as [->|HC]; [by rewrite NewJuliaObj_NULL in Hnew|].
  destruct (GAP_MEMORY_STORAGE_INTS st) as [|position ints _] eqn:Hints using rev_ind.
  - unfold NewJuliaObj, mbind, M_bind in Hnew.
    by rewrite (get_next_julia_position_nil _ Hints) in Hnew.
  - rewrite (NewJuliaObj_snoc _ _ _ _ HC Hints) in Hnew.
    exists ints, position. by simplify_eq.
Qed.

(** ** Storage only grows *)

Lemma do_event_length (e : host_event) (w w' : world) :
  do_event e w = Some w' ->
  (length (GAP_MEMORY_STORAGE (table w)) <= length (GAP_MEMORY_STORAGE (table w')))%nat.
Proof.
  destruct e as [C|k]; simpl.
  - destruct (NewJuliaObj C (table w)) as [[o st']|] eqn:Hnew; [|done].
    intros [= <-]. simpl.
    apply NewJuliaObj_Some in Hnew as (ints & position & _ & _ & _ & ->).
    destruct (decide (ints = [])); simpl;
      rewrite length_julia_array_setindex, ?length_app; lia.
  - destruct (live w !! k) as [val|]; [|done].
    destruct val; try done.
    rewrite JuliaObjFreeFunc_eq. intros [= <-]. simpl.
    by rewrite length_julia_array_setindex.
Qed.

Lemma run_events_length (es : list host_event) (w w' : world) :
  run_events es w = Some w' ->
  (length (GAP_MEMORY_STORAGE (table w)) <= length (GAP_MEMORY_STORAGE (table w')))%nat.
Proof.
  revert w. induction es as [|e es IH]; intros w; simpl.
  - by intros [= ->].
  - destruct (do_event e w) as [w1|] eqn:He; [|done].
    intros Hrun. apply do_event_length in He. apply IH in Hrun. lia.
Qed.

(** ** The invariant holds along every run *)

Lemma table_inv_init : table_inv init_world.
Proof.
  split; simpl.
  - exists []. simpl. split; [done|]. split; [apply NoDup_nil_2 | apply Forall_nil_2].
  - apply Forall_nil_2.
Qed.

Lemma getindex_is_Some {A} (a : list A) (i : Z) :
  1 <= i <= Z.of_nat (length a) -> is_Some (julia_array_getindex a i).
Proof.
  intros Hi. unfold julia_array_getindex. rewrite bool_decide_true by done.
  apply lookup_lt_is_Some_2. lia.
Qed.

Lemma table_inv_NewJuliaObj (w : world) (C : jl_value) (o : Obj) (st' : anchor_table) :
  table_inv w ->
  NewJuliaObj C (table w) = Some (o, st') ->
  fits_int st' ->
  table_inv (mk_world st' (o :: live w)).
Proof.
  intros [(released & Hints & Hnodup & Hrange) Hlive] Hnew Hfits.
  apply NewJuliaObj_Some in Hnew as (ints & position & HC & Hints' & -> & ->).
  rewrite Hints in Hints'.
  set (len := length (GAP_MEMORY_STORAGE (table w))) in *.
  destruct released as [|p released _] using rev_ind.
  - (* the free list held the fresh index only: storage grows *)
    destruct ints as [|? ints]; [|by destruct ints].
    simpl in Hints'. injection Hints' as <-.
    rewrite decide_True in Hfits |- * by done.
    unfold fits_int in Hfits. simpl in Hfits.
    rewrite length_julia_array_setindex, length_app in Hfits. simpl in Hfits.
    fold len in Hfits.
    split; simpl; rewrite ?length_julia_array_setindex, ?length_app; simpl; fold len.
    + exists []. simpl in *. split; [|split].
      * rewrite (sint32_int (Z.of_nat len + 1)) by int_range.
        rewrite sint32_int by int_range.
        f_equal. lia.
      * apply NoDup_cons_2; [|done].
        intros Hin. rewrite Forall_forall in Hrange. apply Hrange in Hin. lia.
      * apply Forall_cons_2; [lia|].
        eapply Forall_impl; [exact Hrange|]. simpl. intros; lia.
    + apply Forall_cons_2; simpl.
      * split; [done|]. rewrite julia_array_getindex_setindex, bool_decide_true by done.
        fold (julia_array_push (GAP_MEMORY_STORAGE (table w)) (jl_box_int64 0)).
        rewrite julia_array_getindex_push. fold len.
        by rewrite bool_decide_true by done.
      * rewrite Forall_forall in Hlive. rewrite Forall_forall in Hrange.
        rewrite Forall_forall. intros h Hh.
        destruct (Hlive h Hh) as [Hshape Hcell]. split; [done|].
        assert (1 <= handle_pos h <= Z.of_nat len) as Hpos.
        { apply Hrange. simpl. apply list_elem_of_fmap. eauto. }
        rewrite julia_array_getindex_setindex, bool_decide_false by lia.
        fold (julia_array_push (GAP_MEMORY_STORAGE (table w)) (jl_box_int64 0)).
        rewrite julia_array_getindex_push. fold len.
        by rewrite bool_decide_false by lia.
  - (* a released index is handed out again *)
    assert (ints = (Z.of_nat len + 1) :: released /\ position = p) as [-> ->].
    { change ((Z.of_nat len + 1) :: released ++ [p])
        with (((Z.of_nat len + 1) :: released) ++ [p]) in Hints'.
      by apply app_inj_tail in Hints' as [<- <-]. }
    rewrite decide_False by done.
    rewrite <- app_assoc in Hnodup, Hrange. simpl in Hnodup, Hrange.
    split; simpl; rewrite ?length_julia_array_setindex; fold len.
    + exists released. done.
    + assert (1 <= p <= Z.of_nat len) as Hp.
      { rewrite Forall_forall in Hrange. apply Hrange. apply elem_of_app. right. left. }
      apply Forall_cons_2; simpl.
      * split; [done|]. rewrite julia_array_getindex_setindex, bool_decide_true by done.
        by destruct (getindex_is_Some (GAP_MEMORY_STORAGE (table w)) p Hp) as [y ->].
      * apply NoDup_app in Hnodup as (_ & _ & Hnodup).
        apply NoDup_cons in Hnodup as [Hfresh _].
        rewrite Forall_forall in Hlive. rewrite Forall_forall. intros h Hh.
        destruct (Hlive h Hh) as [Hshape Hcell]. split; [done|].
        rewrite julia_array_getindex_setindex, bool_decide_false; [done|].
        intros Heq. apply Hfresh. rewrite <- Heq. apply list_elem_of_fmap. eauto.
Qed.

Lemma table_inv_collect (w : world) (k : nat) (val : Obj) (st' : anchor_table) :
  table_inv w ->
  live w !! k = Some val ->
  JuliaObjFreeFunc val (table w) = Some (tt, st') ->
  table_inv (mk_world st' (delete k (live w))).
Proof.
  intros [(released & Hints & Hnodup & Hrange) Hlive] Hk Hfree.
  assert (Hval := Hlive). rewrite Forall_forall in Hval.
  destruct (Hval val (list_elem_of_lookup_2 _ _ _ Hk)) as [Hshape _].
  rewrite Hshape, JuliaObjFreeFunc_eq in Hfree. injection Hfree as <-.
  assert (handle_pos <$> live w ≡ₚ
          handle_pos val :: (handle_pos <$> delete k (live w))) as Hperm.
  { rewrite list_fmap_delete. apply delete_Permutation.
    by rewrite list_lookup_fmap, Hk. }
  rewrite Hperm in Hnodup, Hrange.
  split; simpl; rewrite ?length_julia_array_setindex.
  - exists (released ++ [handle_pos val]).
    rewrite Hints, <- app_assoc. done.
  - apply NoDup_app in Hnodup as (_ & _ & Hnodup).
    apply NoDup_cons in Hnodup as [Hfresh _].
    rewrite Forall_forall. intros h Hh.
    destruct (Hval h (list_elem_of_delete_inv _ _ _ Hh)) as [Hh_shape Hcell].
    split; [done|].
    rewrite julia_array_getindex_setindex, bool_decide_false; [done|].
    intros Heq. apply Hfresh. rewrite <- Heq. apply list_elem_of_fmap. eauto.
Qed.

Lemma table_inv_do_event (e : host_event) (w w' : world) :
  table_inv w -> do_event e w = Some w' -> fits_int (table w') -> table_inv w'.
Proof.
  intros Hinv. destruct e as [C|k]; simpl.
  - destruct (NewJuliaObj C (table w)) as [[o st']|] eqn:Hnew; [|done].
    intros [= <-] Hfits. by eapply table_inv_NewJuliaObj.
  - destruct (live w !! k) as [val|] eqn:Hk; [|done].
    destruct (JuliaObjFreeFunc val (table w)) as [[[] st']|] eqn:Hfree; [|done].
    intros [= <-] _. by eapply table_inv_collect.
Qed.

Lemma table_inv_run_events (es : list host_event) (w w' : world) :
  table_inv w -> run_events es w = Some w' -> fits_int (table w') -> table_inv w'.
Proof.
  revert w. induction es as [|e es IH]; intros w Hinv; simpl.
  - by intros [= <-].
  - destruct (do_event e w) as [w1|] eqn:He; [|done].
    intros Hrun Hfits. eapply IH; [|exact Hrun|exact Hfits].
    eapply table_inv_do_event; [exact Hinv|exact He|].
    apply run_events_length in Hrun. unfold fits_int in *. lia.
Qed.

Lemma table_inv_reachable (es : list host_event) (w : world) :
  run_events es init_world = Some w -> fits_int (table w) -> table_inv w.
Proof. apply table_inv_run_events, table_inv_init. Qed.

(** ** The anchor table: the claims *)

(** C2, as stated, fails on the table that [InitKernel] leaves: the
    code pushes [2] as the replacement free index, the popped index
    plus one, where the new storage length is [1]. *)
Lemma allocate_slot_not_new_length :
  get_next_julia_position InitKernel = Some (1, mk_table [jl_int64 0] [2]) /\
  allocate_slot_spec InitKernel = Some (1, mk_table [jl_int64 0] [1]) /\
  get_next_julia_position InitKernel ≠ allocate_slot_spec InitKernel.
Proof. split; [reflexivity|]. split; [reflexivity|]. discriminate. Qed.

(** C2, amended: in every state reached from [InitKernel] by handle
    creations and finalisations, with room in storage for one more
    cell whose successor index is a C [int], [get_next_julia_position]
    pops the last index of the free list and returns it; if the free
    list is empty after the pop, it extends storage by exactly one
    sentinel and pushes the new storage length plus one as the
    replacement free index; otherwise it changes nothing else. *)
Theorem get_next_julia_position_spec (es : list host_event) (w : world) :
  run_events es init_world = Some w ->
  Z.of_nat (length (GAP_MEMORY_STORAGE (table w))) + 1 < INT_MAX ->
  exists ints position,
    GAP_MEMORY_STORAGE_INTS (table w) = ints ++ [position] /\
    get_next_julia_position (table w) =
      Some (position,
            if decide (ints = []) then
              let storage := GAP_MEMORY_STORAGE (table w) ++ [jl_box_int64 0] in
              mk_table storage [Z.of_nat (length storage) + 1]
            else mk_table (GAP_MEMORY_STORAGE (table w)) ints).
Proof.
  intros Hrun Hroom.
  destruct (table_inv_reachable es w Hrun) as [(released & Hints & _) _].
  { unfold fits_int. lia. }
  destruct released as [|p released _] using rev_ind.
  - exists [], (Z.of_nat (length (GAP_MEMORY_STORAGE (table w))) + 1).
    split; [done|].
    rewrite (get_next_julia_position_snoc _ [] _ Hints). simpl.
    rewrite length_app. simpl.
    rewrite (sint32_int (Z.of_nat _ + 1)) by int_range.
    rewrite sint32_int by int_range.
    do 4 f_equal. lia.
  - exists ((Z.of_nat (length (GAP_MEMORY_STORAGE (table w))) + 1) :: released), p.
    split; [done|].
    by rewrite (get_next_julia_position_snoc _ (_ :: released) p Hints).
Qed.

Lemma get_next_julia_position_spec_witness :
  exists ints position,
    [3] = ints ++ [position] /\
    get_next_julia_position (mk_table [jl_string "a"; jl_bool true] [3]) =
      Some (position,
            if decide (ints = []) then
              mk_table [jl_string "a"; jl_bool true; jl_int64 0] [4]
            else mk_table [jl_string "a"; jl_bool true] ints).
Proof.
  apply (get_next_julia_position_spec
           [ev_NewJuliaObj (jl_string "a"); ev_NewJuliaObj (jl_bool true)]
           (mk_world (mk_table [jl_string "a"; jl_bool true] [3])
                     [JuliaObj (jl_bool true) 2; JuliaObj (jl_string "a") 1])).
  - reflexivity.
  - unfold INT_MAX. simpl. lia.
Defined.

(** C3: after any sequence of [get_next_julia_position] calls and
    finaliser runs from the table that [InitKernel] leaves, a further
    [get_next_julia_position] call returns, and the free list is not
    empty when it does. *)
Theorem free_list_nonempty_after_allocate (calls : list anchor_call) :
  exists position st,
    (_ ← run_calls calls; get_next_julia_position) InitKernel = Some (position, st) /\
    GAP_MEMORY_STORAGE_INTS st ≠ [].
Proof.
  assert (forall st, GAP_MEMORY_STORAGE_INTS st ≠ [] ->
          exists st', run_calls calls st = Some (tt, st') /\
                      GAP_MEMORY_STORAGE_INTS st' ≠ []) as Hrun.
  { induction calls as [|c calls IH]; intros st Hne.
    - by exists st.
    - cbn [run_calls]. destruct c as [|p list_number]; cbn [do_call];
        unfold mbind, M_bind.
      + destruct (get_next_julia_position_nonempty st Hne) as (position & st1 & -> & Hne1).
        by apply IH.
      + rewrite JuliaObjFreeFunc_eq. apply IH. simpl.
        by destruct (GAP_MEMORY_STORAGE_INTS st). }
  destruct (Hrun InitKernel) as (st1 & Hst1 & Hne1); [done|].
  unfold mbind, M_bind. rewrite Hst1.
  by apply get_next_julia_position_nonempty.
Qed.

(** C4: in every state reached from [InitKernel] by handle creations
    and finalisations, storage being shorter than [INT_MAX]: the cell
    at the stored index of every handle created and not yet finalised
    holds the handle's guest value; and [NewJuliaObj] on a guest value
    [C] takes the index that [get_next_julia_position] gives, stores
    it in the handle, and leaves [C] in storage at that index. *)
Theorem NewJuliaObj_anchor_liveness (es : list host_event) (w : world) :
  run_events es init_world = Some w ->
  fits_int (table w) ->
  (forall h, h ∈ live w ->
     exists C position,
       h = JuliaObj C position /\
       julia_array_getindex (GAP_MEMORY_STORAGE (table w)) position = Some C) /\
  (forall C, C ≠ NULL ->
     exists position st1 st',
       get_next_julia_position (table w) = Some (position, st1) /\
       NewJuliaObj C (table w) = Some (JuliaObj C position, st') /\
       julia_array_getindex (GAP_MEMORY_STORAGE st') position = Some C).
Proof.
  intros Hrun Hfits.
  destruct (table_inv_reachable es w Hrun Hfits)
    as [(released & Hints & Hnodup & Hrange) Hlive].
  split.
  - rewrite Forall_forall in Hlive. intros h Hh.
    destruct (Hlive h Hh) as [Hshape Hcell]. eauto.
  - intros C HC.
    set (len := length (GAP_MEMORY_STORAGE (table w))) in *.
    destruct released as [|p released _] using rev_ind.
    + rewrite (NewJuliaObj_snoc C _ [] _ HC Hints).
      rewrite (get_next_julia_position_snoc _ [] _ Hints). simpl.
      eexists _, _, _. split; [reflexivity|]. split; [reflexivity|]. simpl.
      rewrite julia_array_getindex_setindex, bool_decide_true by done.
      fold (julia_array_push (GAP_MEMORY_STORAGE (table w)) (jl_box_int64 0)).
      rewrite julia_array_getindex_push. fold len.
      by rewrite bool_decide_true by done.
    + change ((Z.of_nat len + 1) :: released ++ [p])
        with (((Z.of_nat len + 1) :: released) ++ [p]) in Hints.
      rewrite (NewJuliaObj_snoc C _ _ _ HC Hints).
      rewrite (get_next_julia_position_snoc _ _ _ Hints).
      rewrite !decide_False by done.
      eexists _, _, _. split; [reflexivity|]. split; [reflexivity|]. simpl.
      rewrite julia_array_getindex_setindex, bool_decide_true by done.
      assert (1 <= p <= Z.of_nat len) as Hp.
      { rewrite Forall_forall in Hrange. apply Hrange.
        rewrite !elem_of_app. left. right. left. }
      by destruct (getindex_is_Some (GAP_MEMORY_STORAGE (table w)) p Hp) as [y ->].
Qed.

Lemma NewJuliaObj_anchor_liveness_witness :
  let w := mk_world (mk_table [jl_string "a"; jl_int64 0; jl_nothing] [4; 2])
                    [JuliaObj jl_nothing 3; JuliaObj (jl_string "a") 1] in
  (forall h, h ∈ live w ->
     exists C position,
       h = JuliaObj C position /\
       julia_array_getindex (GAP_MEMORY_STORAGE (table w)) position = Some C) /\
  (forall C, C ≠ NULL ->
     exists position st1 st',
       get_next_julia_position (table w) = Some (position, st1) /\
       NewJuliaObj C (table w) = Some (JuliaObj C position, st') /\
       julia_array_getindex (GAP_MEMORY_STORAGE st') position = Some C).
Proof.
  intros w.
  apply (NewJuliaObj_anchor_liveness
           [ev_NewJuliaObj (jl_string "a"); ev_NewJuliaObj (jl_bool true);
            ev_NewJuliaObj jl_nothing; ev_collect 1] w).
  - reflexivity.
  - unfold fits_int, INT_MAX. simpl. lia.
Defined.

(** C5: the finaliser, run on a handle holding index [list_number],
    returns; it leaves the length of storage as it was; a cell other
    than [list_number] is as it was; the cell [list_number], when
    storage has it, holds the sentinel; and the free list is the old
    one with [list_number] pushed. *)
Theorem JuliaObjFreeFunc_spec (p : jl_value) (list_number : Z) (st : anchor_table) :
  exists st',
    JuliaObjFreeFunc (JuliaObj p list_number) st = Some (tt, st') /\
    GAP_MEMORY_STORAGE_INTS st' = GAP_MEMORY_STORAGE_INTS st ++ [list_number] /\
    length (GAP_MEMORY_STORAGE st') = length (GAP_MEMORY_STORAGE st) /\
    forall j,
      julia_array_getindex (GAP_MEMORY_STORAGE st') j =
      if bool_decide (j = list_number)
      then (fun _ => jl_box_int64 0) <$> julia_array_getindex (GAP_MEMORY_STORAGE st) j
      else julia_array_getindex (GAP_MEMORY_STORAGE st) j.
Proof.
  rewrite JuliaObjFreeFunc_eq. eexists. split; [reflexivity|]. simpl.
  split; [done|]. split; [apply length_julia_array_setindex|].
  intros j. apply julia_array_getindex_setindex.
Qed.

(** ** Occupied slots *)

Lemma sint32_succ_fresh (k : Z) :
  0 <= k <= INT_MAX -> ~ (1 <= sint 32 (k + 1) <= k).
Proof.
  intros Hk. destruct (decide (k + 1 <= INT_MAX)) as [Hle|Hgt].
  - rewrite sint32_int by int_range. lia.
  - assert (k = INT_MAX) as -> by lia. vm_compute. intros [H _]. by apply H.
Qed.

Lemma elem_of_occupied (st : anchor_table) (x : Z) :
  x ∈ occupied st <->
  1 <= x <= Z.of_nat (length (GAP_MEMORY_STORAGE st)) /\
  (x ∉ GAP_MEMORY_STORAGE_INTS st).
Proof.
  unfold occupied.
  rewrite elem_of_difference, !elem_of_list_to_set, elem_of_seqZ. intuition lia.
Qed.

(** On a table that satisfies the invariant, [NewJuliaObj] takes an
    index that was not occupied and leaves it as the one index newly
    occupied. *)
Lemma NewJuliaObj_occupied (w : world) (C : jl_value) :
  table_inv w -> fits_int (table w) -> C ≠ NULL ->
  exists position st',
    NewJuliaObj C (table w) = Some (JuliaObj C position, st') /\
    (position ∉ occupied (table w)) /\
    occupied st' = {[position]} ∪ occupied (table w).
Proof.
  intros [(released & Hints & Hnodup & Hrange) _] Hfits HC.
  unfold fits_int in Hfits.
  set (len := length (GAP_MEMORY_STORAGE (table w))) in *.
  destruct released as [|p released _] using rev_ind.
  - rewrite (NewJuliaObj_snoc C _ [] _ HC Hints). simpl.
    eexists _, _. split; [reflexivity|]. split.
    + rewrite elem_of_occupied. fold len. lia.
    + apply set_eq. intros x.
      rewrite elem_of_union, elem_of_singleton, !elem_of_occupied.
      cbn [GAP_MEMORY_STORAGE GAP_MEMORY_STORAGE_INTS].
      rewrite length_julia_array_setindex, length_app, Hints.
      cbn [length]. fold len.
      repeat setoid_rewrite list_elem_of_singleton.
      rewrite (sint32_int (Z.of_nat len + 1)) by int_range.
      pose proof (sint32_succ_fresh (Z.of_nat len + 1)) as Hfresh.
      unfold INT_MAX in *. lia.
  - change ((Z.of_nat len + 1) :: released ++ [p])
      with (((Z.of_nat len + 1) :: released) ++ [p]) in Hints.
    rewrite (NewJuliaObj_snoc C _ _ _ HC Hints), decide_False by done.
    rewrite <- app_assoc in Hnodup, Hrange.
    apply NoDup_app in Hnodup as (_ & Hfresh & _).
    assert (1 <= p <= Z.of_nat len) as Hp.
    { rewrite Forall_forall in Hrange. apply Hrange.
      rewrite elem_of_app. right. left. }
    assert (p ∉ released) as Hp_released.
    { intros Hin. apply (Hfresh p Hin). left. }
    eexists _, _. split; [reflexivity|]. split.
    + rewrite elem_of_occupied, Hints. intros [_ Hnot]. apply Hnot.
      rewrite elem_of_app. right. left.
    + apply set_eq. intros x.
      rewrite elem_of_union, elem_of_singleton, !elem_of_occupied.
      cbn [GAP_MEMORY_STORAGE GAP_MEMORY_STORAGE_INTS].
      rewrite length_julia_array_setindex, Hints. fold len.
      rewrite elem_of_app, list_elem_of_singleton, !elem_of_cons.
      destruct (decide (x = p)) as [->|Hxp]; [|tauto].
      split; [tauto|]. intros _. split; [done|].
      intros [Heq|Hin]; [lia|done].
Qed.

(** ** [JuliaBox], [JuliaEvalString], [JuliaUnbox]: the claims *)


(** On a table that satisfies the invariant, [NewJuliaObj] hands out
    the last index of the free list and leaves the guest value in the
    cell at that index. *)
Lemma NewJuliaObj_cell (w : world) (C : jl_value) (o : Obj) (st' : anchor_table) :
  table_inv w ->
  NewJuliaObj C (table w) = Some (o, st') ->
  exists position,
    o = JuliaObj C position /\
    last (GAP_MEMORY_STORAGE_INTS (table w)) = Some position /\
    julia_array_getindex (GAP_MEMORY_STORAGE st') position = Some C.
Proof.
  intros [(released & Hints & _ & Hrange) _] Hnew.
  apply NewJuliaObj_Some in Hnew as (ints & position & _ & Hints' & -> & ->).
  exists position. split; [done|]. split; [by rewrite Hints', last_snoc|].
  rewrite Hints in Hints'.
  set (len := length (GAP_MEMORY_STORAGE (table w))) in *.
  destruct released as [|p released _] using rev_ind.
  - destruct ints as [|? ints]; [|by destruct ints].
    simpl in Hints'. injection Hints' as <-.
    rewrite decide_True by done. cbn [GAP_MEMORY_STORAGE].
    rewrite julia_array_getindex_setindex, bool_decide_true by done.
    fold (julia_array_push (GAP_MEMORY_STORAGE (table w)) (jl_box_int64 0)).
    rewrite julia_array_getindex_push. fold len.
    by rewrite bool_decide_true by done.
  - assert (ints = (Z.of_nat len + 1) :: released /\ position = p) as [-> ->].
    { change ((Z.of_nat len + 1) :: released ++ [p])
        with (((Z.of_nat len + 1) :: released) ++ [p]) in Hints'.
      by apply app_inj_tail in Hints' as [<- <-]. }
    rewrite decide_False by done. cbn [GAP_MEMORY_STORAGE].
    rewrite julia_array_getindex_setindex, bool_decide_true by done.
    assert (1 <= p <= Z.of_nat len) as Hp.
    { rewrite Forall_forall in Hrange. apply Hrange.
      rewrite !elem_of_app. left. right. left. }
    by destruct (getindex_is_Some (GAP_MEMORY_STORAGE (table w)) p Hp) as [y ->].
Qed.




(** C10: [JuliaUnbox] on a handle whose guest value is a
    one-dimensional array of length zero returns the empty plain
    list, which has length zero and is not [Fail]. *)
Theorem JuliaUnbox_empty_array (eltype : jl_datatype) (pos : Z) :
  exists return_list,
    JuliaUnbox (JuliaObj (jl_array eltype 1 []) pos) = Some (PList return_list) /\
    length return_list = 0%nat /\
    JuliaUnbox (JuliaObj (jl_array eltype 1 []) pos) ≠ Some Fail.
Proof. exists []. split; [reflexivity|]. split; [reflexivity|]. discriminate. Qed.

(** ** The conversion loops *)

(** A loop whose iteration [i] writes cell [i], over an output that
    has a cell for every iteration, leaves the results of its body in
    the order of the source. *)
Lemma for_loop_Forall2 {A B} (body : A -> option B)
    (store : list B -> B -> nat -> list B) (rest : list A) (ys : list B) :
  (forall out y i, store out y i = <[i := y]> out) ->
  Forall2 (fun x y => body x = Some y) rest ys ->
  forall i out,
    length out = (i + length rest)%nat ->
    for_loop body store rest i out = Some (take i out ++ ys).
Proof.
  intros Hstore Hall. induction Hall as [|x y rest ys Hxy _ IH]; intros i out Hlen.
  - simpl in *. rewrite app_nil_r, take_ge by lia. reflexivity.
  - simpl in *. rewrite Hxy, Hstore, IH by (rewrite length_insert; lia).
    rewrite (take_S_r _ _ y) by (apply list_lookup_insert_eq; lia).
    rewrite take_insert_ge by lia. by rewrite <- app_assoc.
Qed.

Lemma for_loop_from_0 {A B} (body : A -> option B)
    (store : list B -> B -> nat -> list B) (xs : list A) (ys : list B) (z : B) :
  (forall out y i, store out y i = <[i := y]> out) ->
  Forall2 (fun x y => body x = Some y) xs ys ->
  for_loop body store xs 0 (replicate (length xs) z) = Some ys.
Proof.
  intros Hstore Hall.
  rewrite (for_loop_Forall2 body store xs ys Hstore Hall) by (by rewrite length_replicate).
  by rewrite take_0.
Qed.

Lemma SET_ELM_PLIST_insert (out : list Obj) (y : Obj) (i : nat) :
  SET_ELM_PLIST out (i + 1) y = <[i := y]> out.
Proof. unfold SET_ELM_PLIST. by rewrite Nat.add_sub. Qed.

(** [JuliaUnbox_internal] on an array whose cells all convert: the
    plain list of the converted cells, in index order. *)
Lemma JuliaUnbox_internal_array (eltype : jl_datatype) (ndims : nat)
    (data : list jl_value) (elts : list Obj) :
  Forall2 (fun v o => JuliaUnbox_internal v = Some o) data elts ->
  JuliaUnbox_internal (jl_array eltype ndims data) = Some (PList elts).
Proof.
  intros Hall. cbn [JuliaUnbox_internal]. unfold NEW_PLIST.
  by rewrite (for_loop_from_0 _ _ data elts NullObj SET_ELM_PLIST_insert Hall).
Qed.

(** [JuliaBox_internal] on a plain list of which [IS_STRING] does not
    hold and whose entries all convert: the one-dimensional array of
    the converted entries, in index order. *)
Lemma JuliaBox_internal_PList (elts : list Obj) (data : list jl_value) :
  IS_STRING (PList elts) = false ->
  Forall2 (fun o v => JuliaBox_internal o = Some v) elts data ->
  JuliaBox_internal (PList elts) = Some (jl_array jl_any_type 1 data).
Proof.
  intros Hstring Hall. cbn [JuliaBox_internal]. rewrite Hstring.
  unfold jl_alloc_array_1d.
  by rewrite (for_loop_from_0 JuliaBox_internal jl_arrayset elts data NULL
                (fun _ _ _ => eq_refl) Hall).
Qed.

(** ** The round trip *)

Lemma Obj_PList_ind (P : Obj -> Prop) :
  (forall o, (forall elts, o ≠ PList elts) -> P o) ->
  (forall elts, Forall P elts -> P (PList elts)) ->
  forall o, P o.
Proof.
  intros Hleaf Hlist. fix IH 1. intros o.
  destruct o as [| | | | | | | | | |elts| | | |]; try (apply Hleaf; discriminate).
  apply Hlist. induction elts as [|o elts IHelts]; constructor.
  - apply IH.
  - exact IHelts.
Qed.

Lemma substring_all (data : string) :
  String.substring 0 (String.length data) data = data.
Proof. induction data as [|c data IH]; simpl; [done | by rewrite IH]. Qed.

(** Unboxing what boxing gives returns the host value that was boxed,
    for immediate integers, floats, strings without a NUL byte,
    booleans, and plain lists of such values, nested to any depth; the
    entries of a list come back in their order. *)
Lemma JuliaUnbox_JuliaBox_supported (obj : Obj) :
  supported obj = true ->
  exists v, JuliaBox_internal obj = Some v /\ JuliaUnbox_internal v = Some obj.
Proof.
  induction obj as [obj Hleaf|elts IH] using Obj_PList_ind; intros Hsup.
  - destruct obj; try discriminate; simpl in *.
    + apply bool_decide_eq_true in Hsup. unfold small_int in Hsup.
      eexists. split; [reflexivity|]. simpl. f_equal.
      apply INTOBJ_INT_small.
      change (2 ^ 60) with 1152921504606846976 in Hsup.
      change (2 ^ 61) with 2305843009213693952. lia.
    + eexists. split; reflexivity.
    + apply String.eqb_eq in Hsup. eexists. split; [reflexivity|]. simpl.
      unfold C_NEW_STRING, CSTR_STRING. by rewrite substring_all, Hsup.
    + eexists. split; reflexivity.
    + eexists. split; reflexivity.
    + by destruct (Hleaf elts).
  - assert (exists data,
              Forall2 (fun o v => JuliaBox_internal o = Some v) elts data /\
              Forall2 (fun v o => JuliaUnbox_internal v = Some o) data elts)
      as (data & Hbox & Hunbox).
    { cbn [supported] in Hsup. apply andb_true_iff in Hsup as [_ Hsup].
      induction IH as [|o elts Ho _ IHelts]; [by exists []|].
      simpl in Hsup. apply andb_true_iff in Hsup as [Hsup_o Hsup_elts].
      destruct (Ho Hsup_o) as (v & Hv_box & Hv_unbox).
      destruct (IHelts Hsup_elts) as (data & Hbox & Hunbox).
      exists (v :: data). split; by constructor. }
    exists (jl_array jl_any_type 1 data). split.
    + apply JuliaBox_internal_PList; [|done].
      cbn [supported] in Hsup. apply andb_true_iff in Hsup as [Hsup _].
      by apply negb_true_iff in Hsup.
    + by apply JuliaUnbox_internal_array.
Qed.

(** ** The converters: the claims *)

(** C1 at the host string of the three bytes ["a"], NUL, ["b"]:
    [jl_cstr_to_string] stops at the NUL, the guest string is ["a"],
    and unboxing it gives the host string ["a"], not the string that
    was boxed. *)
Theorem JuliaBox_internal_string_stops_at_NUL :
  let v := StringObj (String "a" (String Ascii.zero (String "b" EmptyString))) in
  supported v = false /\
  JuliaBox_internal v = Some (jl_string "a") /\
  JuliaUnbox_internal (jl_string "a") = Some (StringObj "a") /\
  JuliaBox v InitKernel =
    Some (JuliaObj (jl_string "a") 1, mk_table [jl_string "a"] [2]) /\
  JuliaUnbox (JuliaObj (jl_string "a") 1) = Some (StringObj "a") /\
  StringObj "a" ≠ v.
Proof. repeat (split; [reflexivity|]). discriminate. Qed.

(** C6 at the guest matrix [[1 2; 3 4]], an array of two dimensions:
    [jl_is_array] holds of it, and [JuliaUnbox_internal] returns the
    plain list of its cells in column-major order, not [Fail]. *)
Theorem JuliaUnbox_internal_matrix_not_Fail :
  let matrix := jl_array jl_int64_type 2 [jl_int64 1; jl_int64 3; jl_int64 2; jl_int64 4] in
  unboxable matrix = false /\
  jl_is_array matrix = true /\
  JuliaUnbox_internal matrix = Some (PList [IntObj 1; IntObj 3; IntObj 2; IntObj 4]) /\
  JuliaUnbox (JuliaObj matrix 1) = Some (PList [IntObj 1; IntObj 3; IntObj 2; IntObj 4]) /\
  JuliaUnbox_internal matrix ≠ Some Fail.
Proof. repeat (split; [reflexivity|]). discriminate. Qed.

(** X17: a guest value that is neither an integer up to 64 bits, a
    float, a string, a boolean nor an array unboxes to [Fail]. *)
Lemma JuliaUnbox_internal_unsupported (v : jl_value) :
  v ≠ NULL -> unboxable v = false -> jl_is_array v = false ->
  JuliaUnbox_internal v = Some Fail.
Proof. intros Hv Hun Harr. destruct v; try done. Qed.

(** X18: [JuliaBox] on a host object that is neither an immediate
    integer, a float, a string, a boolean, a permutation nor a plain
    list, such as a large integer, returns [Fail] and leaves the
    anchor table as it was. *)
Lemma JuliaBox_unsupported (obj : Obj) (st : anchor_table) :
  obj ≠ NullObj -> boxable obj = false -> JuliaBox obj st = Some (Fail, st).
Proof. intros Hobj Hbox. destruct obj; try done. Qed.

(** C8, as stated, fails at the [Int64] of value [2 ^ 62]:
    [INTOBJ_INT] keeps 62 bits, and the result is the immediate
    integer [0]. *)
Lemma JuliaUnbox_internal_int64_wraps :
  jl_integer (jl_int64 (2 ^ 62)) = Some (2 ^ 62, (- 2 ^ 63, 2 ^ 63)) /\
  - 2 ^ 63 <= 2 ^ 62 < 2 ^ 63 /\
  JuliaUnbox_internal (jl_int64 (2 ^ 62)) = Some (IntObj 0) /\
  JuliaUnbox_internal (jl_int64 (2 ^ 62)) ≠ Some (IntObj (2 ^ 62)).
Proof.
  split; [reflexivity|]. split; [lia|]. split; [reflexivity|].
  vm_compute. discriminate.
Qed.

(** C8, amended: for a guest integer of value [n] within the bounds
    of its type, [JuliaUnbox_internal] returns the immediate integer
    [n] when the type has at most 32 bits, and, for [Int64] and
    [UInt64], when [n] is within the range of GAP's immediate
    integers. *)
Theorem JuliaUnbox_internal_integer (v : jl_value) (n lo hi : Z) :
  jl_integer v = Some (n, (lo, hi)) ->
  lo <= n < hi ->
  hi - lo <= 2 ^ 32 \/ small_int n ->
  JuliaUnbox_internal v = Some (IntObj n).
Proof.
  intros Hint Hbounds Hsmall.
  assert (- 2 ^ 61 <= n < 2 ^ 61) as Hn.
  { unfold small_int in Hsmall.
    destruct v; try discriminate; simpl in Hint; injection Hint as <- <- <-; lia. }
  destruct v; try discriminate; simpl in Hint; injection Hint as <- _ _;
    simpl; f_equal; by apply INTOBJ_INT_small.
Qed.

Lemma JuliaUnbox_internal_integer_witness :
  JuliaUnbox_internal (jl_uint32 4294967295) = Some (IntObj 4294967295).
Proof.
  apply (JuliaUnbox_internal_integer (jl_uint32 4294967295) 4294967295 0 (2 ^ 32)).
  - reflexivity.
  - lia.
  - left. lia.
Defined.

(** * Further properties *)

(** ** The conversion loops, in full *)

(** A loop whose iteration [i] writes cell [i] returns exactly when
    its body returns on every cell, with the results in the order of
    the source. *)
Lemma for_loop_mapM {A B} (body : A -> option B)
    (store : list B -> B -> nat -> list B) (rest : list A) :
  (forall out y i, store out y i = <[i := y]> out) ->
  forall i out,
    length out = (i + length rest)%nat ->
    for_loop body store rest i out = (fun ys => take i out ++ ys) <$> mapM body rest.
Proof.
  intros Hstore. induction rest as [|x rest IH]; intros i out Hlen; simpl in *.
  - by rewrite app_nil_r, take_ge by lia.
  - destruct (body x) as [y|]; simpl; [|done].
    rewrite Hstore, IH by (rewrite length_insert; lia).
    destruct (mapM body rest) as [ys|]; simpl; [|done]. f_equal.
    rewrite (take_S_r _ _ y) by (apply list_lookup_insert_eq; lia).
    rewrite take_insert_ge by lia. by rewrite <- app_assoc.
Qed.

Lemma JuliaUnbox_internal_array_mapM (eltype : jl_datatype) (ndims : nat)
    (data : list jl_value) :
  JuliaUnbox_internal (jl_array eltype ndims data) =
  PList <$> mapM JuliaUnbox_internal data.
Proof.
  cbn [JuliaUnbox_internal]. unfold NEW_PLIST.
  rewrite (for_loop_mapM _ _ data SET_ELM_PLIST_insert) by (by rewrite length_replicate).
  rewrite take_0. by destruct (mapM JuliaUnbox_internal data).
Qed.

Lemma JuliaBox_internal_PList_mapM (elts : list Obj) :
  IS_STRING (PList elts) = false ->
  JuliaBox_internal (PList elts) =
  jl_array jl_any_type 1 <$> mapM JuliaBox_internal elts.
Proof.
  intros Hstring. cbn [JuliaBox_internal]. rewrite Hstring.
  unfold jl_alloc_array_1d.
  rewrite (for_loop_mapM JuliaBox_internal jl_arrayset elts (fun _ _ _ => eq_refl))
    by (by rewrite length_replicate).
  rewrite take_0. by destruct (mapM JuliaBox_internal elts).
Qed.

Lemma mapM_total {A B} (g : A -> B) (l : list A) :
  mapM (fun x => Some (g x)) l = Some (g <$> l).
Proof. apply mapM_Some_2. induction l; by constructor. Qed.

Lemma box_perm_loop (box : Z -> jl_value) (eltype : jl_datatype) (pts : list Z) :
  for_loop (fun pt => Some (box pt)) jl_arrayset pts 0
    (jl_alloc_array_1d eltype (length pts)) = Some (box <$> pts).
Proof.
  unfold jl_alloc_array_1d.
  rewrite (for_loop_mapM _ jl_arrayset pts (fun _ _ _ => eq_refl))
    by (by rewrite length_replicate).
  by rewrite take_0, mapM_total.
Qed.

Lemma jl_value_array_ind (P : jl_value -> Prop) :
  (forall v, (forall eltype ndims data, v ≠ jl_array eltype ndims data) -> P v) ->
  (forall eltype ndims data, Forall P data -> P (jl_array eltype ndims data)) ->
  forall v, P v.
Proof.
  intros Hleaf Harray. fix IH 1. intros v.
  destruct v as [| | | | | | | | | | | | | |eltype ndims data|];
    try (apply Hleaf; discriminate).
  apply Harray. induction data as [|v data IHdata]; constructor.
  - apply IH.
  - exact IHdata.
Qed.

(** ** When the converters do not return *)

(** X1: [JuliaUnbox_internal] does not return on a guest value that
    holds a null reference, at any depth of arrays: the recursion
    reads the type tag of that reference. *)
Theorem JuliaUnbox_internal_null_inside (v : jl_value) :
  jl_defined v = false -> JuliaUnbox_internal v = None.
Proof.
  induction v as [v Hleaf|eltype ndims data IH] using jl_value_array_ind;
    intros Hnull.
  - destruct v; try discriminate; [reflexivity|].
    by destruct (Hleaf eltype ndims data).
  - rewrite JuliaUnbox_internal_array_mapM.
    rewrite (mapM_None_2 JuliaUnbox_internal data); [done|].
    simpl in Hnull.
    induction IH as [|x data Hx _ IHdata]; [discriminate|].
    simpl in Hnull. destruct (jl_defined x) eqn:Hdefined.
    + apply Exists_cons_tl. by apply IHdata.
    + apply Exists_cons_hd. by apply Hx.
Qed.

Lemma JuliaUnbox_internal_null_inside_witness :
  JuliaUnbox_internal
    (jl_array jl_any_type 1 [jl_int64 1; jl_array jl_any_type 1 [NULL]]) = None.
Proof.
  apply (JuliaUnbox_internal_null_inside
           (jl_array jl_any_type 1 [jl_int64 1; jl_array jl_any_type 1 [NULL]])).
  reflexivity.
Defined.

Lemma IS_CHAR_bound (elts : list Obj) :
  forallb IS_CHAR elts = true -> forallb bound elts = true.
Proof.
  induction elts as [|o elts IH]; simpl; [done|].
  intros [Ho Helts]%andb_true_iff. rewrite IH by done.
  by destruct o.
Qed.

(** X2: [JuliaBox_internal] does not return on a host object that
    holds an unbound entry, at any depth of plain lists: [IS_STRING]
    does not hold of a list with an unbound entry, and the recursion
    reads the header of that entry. *)
Theorem JuliaBox_internal_unbound_inside (obj : Obj) :
  bound obj = false -> JuliaBox_internal obj = None.
Proof.
  induction obj as [obj Hleaf|elts IH] using Obj_PList_ind; intros Hunbound.
  - destruct obj; try discriminate; [reflexivity|].
    by destruct (Hleaf elts).
  - simpl in Hunbound.
    assert (IS_STRING (PList elts) = false) as Hstring.
    { simpl. destruct (forallb IS_CHAR elts) eqn:Hchars; [|done].
      by rewrite (IS_CHAR_bound elts Hchars) in Hunbound. }
    rewrite (JuliaBox_internal_PList_mapM elts Hstring).
    rewrite (mapM_None_2 JuliaBox_internal elts); [done|].
    induction IH as [|o elts Ho _ IHelts]; [discriminate|].
    simpl in Hunbound. destruct (bound o) eqn:Hbound.
    + apply Exists_cons_tl. apply IHelts; [done|].
      simpl in Hstring |- *. apply andb_false_iff in Hstring as [Ho'|Helts]; [|done].
      destruct (forallb IS_CHAR elts) eqn:Hchars; [|done].
      by rewrite (IS_CHAR_bound elts Hchars) in Hunbound.
    + apply Exists_cons_hd. by apply Ho.
Qed.

(** ** The shape of what the converters return *)

(** X3: [JuliaUnbox_internal] on an array, of any element type and any
    number of dimensions, returns nothing but a plain list with one
    entry per cell, entry [i] being what cell [i] unboxes to; so a
    cell of a kind that is not converted shows as a [Fail] entry, and
    the array itself never unboxes to [Fail]. *)
Theorem JuliaUnbox_internal_array_shape (eltype : jl_datatype) (ndims : nat)
    (data : list jl_value) (r : Obj) :
  JuliaUnbox_internal (jl_array eltype ndims data) = Some r <->
  exists elts,
    r = PList elts /\
    Forall2 (fun v o => JuliaUnbox_internal v = Some o) data elts.
Proof.
  rewrite JuliaUnbox_internal_array_mapM, fmap_Some.
  split.
  - intros (elts & Hall & ->). exists elts. split; [done|]. by apply mapM_Some_1.
  - intros (elts & -> & Hall). exists elts. split; [|done]. by apply mapM_Some_2.
Qed.

(** X4: [JuliaBox_internal] on a plain list.  When [IS_STRING] holds
    of the list, that is, when every entry is a character, as in the
    empty plain list, it takes the string branch and returns a guest
    string without a NUL byte, read from the bag of the list, not an
    array.  Otherwise it returns nothing but a one-dimensional array
    of element type [Any] with one cell per entry, cell [i] being
    what entry [i + 1] boxes to.  It returns [0] in neither case. *)
Theorem JuliaBox_internal_PList_shape (elts : list Obj) :
  IS_STRING (PList []) = true /\
  (IS_STRING (PList elts) = true ->
   exists data,
     JuliaBox_internal (PList elts) = Some (jl_string data) /\ NUL_free data) /\
  (IS_STRING (PList elts) = false ->
   forall v,
     JuliaBox_internal (PList elts) = Some v <->
     exists data,
       v = jl_array jl_any_type 1 data /\
       Forall2 (fun o c => JuliaBox_internal o = Some c) elts data).
Proof.
  split; [reflexivity|]. split.
  - intros Hstring. exists (c_str (bag_chars elts)).
    cbn [JuliaBox_internal]. rewrite Hstring. split; [reflexivity|].
    unfold NUL_free. induction (bag_chars elts) as [|c data IH]; simpl; [constructor|].
    destruct (Ascii.eqb_spec c Ascii.zero); simpl; by constructor.
  - intros Hstring v.
    rewrite (JuliaBox_internal_PList_mapM elts Hstring), fmap_Some.
    split.
    + intros (data & Hall & ->). exists data. split; [done|]. by apply mapM_Some_1.
    + intros (data & -> & Hall). exists data. split; [|done]. by apply mapM_Some_2.
Qed.

Lemma JuliaBox_internal_not_boxable (obj : Obj) (c : jl_value) :
  boxable obj = false -> JuliaBox_internal obj = Some c -> c = NULL.
Proof. intros Hbox Hc. destruct obj; try discriminate; by injection Hc as <-. Qed.

(** X5: a plain list of which [IS_STRING] does not hold and one of
    whose entries is of a kind that is not converted: whenever the
    conversion returns, [JuliaBox] does not return [Fail]; it returns
    a handle on an array that has a null cell in the place of that
    entry, and [JuliaUnbox] on that handle does not return. *)
Theorem JuliaBox_list_with_unsupported_entry (elts : list Obj) (e : Obj)
    (v : jl_value) (st : anchor_table) :
  IS_STRING (PList elts) = false ->
  e ∈ elts ->
  boxable e = false ->
  JuliaBox_internal (PList elts) = Some v ->
  GAP_MEMORY_STORAGE_INTS st ≠ [] ->
  exists data position st',
    v = jl_array jl_any_type 1 data /\
    NULL ∈ data /\
    length data = length elts /\
    JuliaBox (PList elts) st = Some (JuliaObj v position, st') /\
    JuliaUnbox (JuliaObj v position) = None.
Proof.
  intros Hstring He Hbox Hv Hne.
  assert (Hv' := Hv).
  rewrite (JuliaBox_internal_PList_mapM elts Hstring), fmap_Some in Hv'.
  destruct Hv' as (data & Hdata & ->).
  apply mapM_Some_1 in Hdata as Hall.
  assert (NULL ∈ data) as Hnull.
  { apply list_elem_of_lookup_1 in He as [i Hi].
    destruct (Forall2_lookup_l _ _ _ _ _ Hall Hi) as (c & Hc & Hec).
    apply (JuliaBox_internal_not_boxable _ _ Hbox) in Hec as ->.
    by eapply list_elem_of_lookup_2. }
  destruct (julia_array_pop_nonempty _ Hne) as (ints & position & Hints & _).
  eexists data, position, _. split; [done|]. split; [done|].
  split; [symmetry; by eapply Forall2_length|]. split.
  - unfold JuliaBox. rewrite Hv. by apply NewJuliaObj_snoc.
  - unfold JuliaUnbox. cbn [ADDR_OBJ_0]. rewrite JuliaUnbox_internal_array_mapM.
    rewrite (mapM_None_2 JuliaUnbox_internal data); [done|].
    apply Exists_exists. by exists NULL.
Qed.

(** ** Round trips *)

(** X6: through the public interface: on a table with a non-empty
    free list, [JuliaBox] on an immediate integer, a float, a string
    without a NUL byte, a boolean, or a non-empty plain list of such
    values, nested to any depth, returns a handle, and [JuliaUnbox]
    on that handle returns the value that was boxed, the entries of
    every list in their order.  The plain lists are those of which
    [IS_STRING] does not hold: an empty plain list, at any depth, is
    boxed as a string. *)
Theorem JuliaUnbox_JuliaBox_roundtrip (obj : Obj) (st : anchor_table) :
  supported obj = true ->
  GAP_MEMORY_STORAGE_INTS st ≠ [] ->
  exists julia_ptr position st',
    JuliaBox obj st = Some (JuliaObj julia_ptr position, st') /\
    JuliaUnbox (JuliaObj julia_ptr position) = Some obj.
Proof.
  intros Hsup Hne.
  destruct (JuliaUnbox_JuliaBox_supported obj Hsup) as (v & Hbox & Hunbox).
  destruct (julia_array_pop_nonempty _ Hne) as (ints & position & Hints & _).
  assert (v ≠ NULL) as Hv by (by intros ->).
  exists v, position. eexists. split; [|exact Hunbox].
  unfold JuliaBox. rewrite Hbox.
  rewrite <- (NewJuliaObj_snoc v st ints position Hv Hints).
  by destruct v.
Qed.

Lemma c_str_NUL_free (data : string) : NUL_free (c_str data).
Proof.
  unfold NUL_free. induction data as [|c data IH]; simpl; [constructor|].
  destruct (Ascii.eqb_spec c Ascii.zero); simpl; by constructor.
Qed.

Lemma c_str_prefix (data : string) :
  exists rest,
    data = (c_str data ++ rest)%string /\
    (rest = EmptyString \/ exists rest', rest = String Ascii.zero rest').
Proof.
  induction data as [|c data (rest & Hdata & Hrest)]; simpl.
  - exists EmptyString. auto.
  - destruct (Ascii.eqb_spec c Ascii.zero) as [->|Hc]; simpl.
    + exists (String Ascii.zero data). eauto.
    + exists rest. split; [|done].
      change (String c data = String c (c_str data ++ rest)%string).
      f_equal. exact Hdata.
Qed.

Lemma c_str_id_iff (data : string) : c_str data = data <-> NUL_free data.
Proof.
  split.
  - intros <-. apply c_str_NUL_free.
  - unfold NUL_free. induction data as [|c data IH]; simpl; [done|].
    intros Hall. apply Forall_cons in Hall as [Hc Hall].
    destruct (Ascii.eqb_spec c Ascii.zero); [done|]. by rewrite IH.
Qed.

(** X7: boxing a host string and unboxing the result returns the
    bytes of the string that come before its first NUL byte: a string
    without a NUL byte, which the host string continues either with
    nothing or with a NUL byte; it is the host string exactly when
    that holds no NUL byte. *)
Theorem JuliaUnbox_JuliaBox_string (data : string) :
  exists kept rest,
    JuliaBox_internal (StringObj data) = Some (jl_string kept) /\
    JuliaUnbox_internal (jl_string kept) = Some (StringObj kept) /\
    data = (kept ++ rest)%string /\
    NUL_free kept /\
    (rest = EmptyString \/ exists rest', rest = String Ascii.zero rest') /\
    (kept = data <-> NUL_free data).
Proof.
  destruct (c_str_prefix data) as (rest & Hdata & Hrest).
  exists (c_str data), rest. split; [reflexivity|]. split.
  - simpl. unfold C_NEW_STRING. by rewrite substring_all.
  - split; [done|]. split; [apply c_str_NUL_free|]. split; [done|].
    apply c_str_id_iff.
Qed.

(** X8: boxing a permutation gives the one-dimensional array of its
    image table, of element type [UInt16] or [UInt32] after the
    encoding, cell [i] holding image [i]; unboxing that array gives
    the plain list of the images as immediate integers, in the same
    order, not a permutation. *)
Theorem JuliaUnbox_JuliaBox_perm (pts : list Z) :
  Forall (fun pt => 0 <= pt < 2 ^ 32) pts ->
  (JuliaBox_internal (Perm2 pts) = Some (jl_array jl_uint16_type 1 (jl_uint16 <$> pts)) /\
   JuliaUnbox_internal (jl_array jl_uint16_type 1 (jl_uint16 <$> pts)) =
     Some (PList (IntObj <$> pts))) /\
  (JuliaBox_internal (Perm4 pts) = Some (jl_array jl_uint32_type 1 (jl_uint32 <$> pts)) /\
   JuliaUnbox_internal (jl_array jl_uint32_type 1 (jl_uint32 <$> pts)) =
     Some (PList (IntObj <$> pts))).
Proof.
  intros Hpts.
  assert (forall pt, 0 <= pt < 2 ^ 32 -> INTOBJ_INT pt = IntObj pt) as Hsmall.
  { intros pt Hpt. apply INTOBJ_INT_small.
    change (2 ^ 32) with 4294967296 in Hpt.
    change (2 ^ 61) with 2305843009213693952. lia. }
  split; (split; [cbn [JuliaBox_internal]; by rewrite box_perm_loop|]);
    apply JuliaUnbox_internal_array;
    apply Forall2_fmap, Forall_Forall2_diag;
    (eapply Forall_impl; [exact Hpts|]); intros pt Hpt; simpl;
    by rewrite (Hsmall pt Hpt).
Qed.

Lemma supported_not_IS_CHAR (obj : Obj) : supported obj = true -> IS_CHAR obj = false.
Proof. by destruct obj. Qed.

(** X9: the other way round: a guest value that is an [Int64] within
    GAP's immediate integers, a [Float64], a string without a NUL
    byte, a [Bool], or a one-dimensional array of element type [Any]
    of such values that is not empty, nested to any depth, unboxes to
    a host value that boxes to the same guest value again.  The empty
    array is left out: it unboxes to the empty plain list, which is
    boxed as a string. *)
Theorem JuliaBox_JuliaUnbox_canonical (v : jl_value) :
  jl_canonical v = true ->
  exists obj,
    JuliaUnbox_internal v = Some obj /\
    supported obj = true /\
    JuliaBox_internal obj = Some v.
Proof.
  induction v as [v Hleaf|eltype ndims data IH] using jl_value_array_ind; intros Hcan.
  - destruct v; try discriminate; simpl in *.
    + exists (IntObj x). split; [|by split].
      f_equal. apply INTOBJ_INT_small.
      apply bool_decide_eq_true in Hcan. unfold small_int in Hcan.
      change (2 ^ 60) with 1152921504606846976 in Hcan.
      change (2 ^ 61) with 2305843009213693952. lia.
    + exists (MacFloat x). by split.
    + exists (StringObj data). unfold C_NEW_STRING. rewrite substring_all.
      split; [done|]. split; [done|].
      apply String.eqb_eq in Hcan. simpl. unfold jl_cstr_to_string, CSTR_STRING.
      by rewrite Hcan.
    + destruct x; simpl; eexists; by split.
    + by destruct (Hleaf eltype ndims data).
  - simpl in Hcan. destruct eltype; try discriminate.
    destruct ndims as [|[|ndims]]; try discriminate.
    assert (data ≠ [] /\ forallb jl_canonical data = true) as [Hne Hall].
    { by destruct data. }
    clear Hcan.
    assert (exists elts,
              Forall2 (fun v o => JuliaUnbox_internal v = Some o) data elts /\
              forallb supported elts = true /\
              Forall2 (fun o v => JuliaBox_internal o = Some v) elts data)
      as (elts & Hunbox & Hsup & Hbox).
    { clear Hne. induction IH as [|v data Hv _ IHdata]; [by exists []|].
      simpl in Hall. apply andb_true_iff in Hall as [Hcan_v Hcan_data].
      destruct (Hv Hcan_v) as (o & Ho_unbox & Ho_sup & Ho_box).
      destruct (IHdata Hcan_data) as (elts & Hunbox & Hsup & Hbox).
      exists (o :: elts). split; [by constructor|]. split; [|by constructor].
      simpl. by rewrite Ho_sup, Hsup. }
    assert (IS_STRING (PList elts) = false) as Hstring.
    { destruct Hunbox as [|v o data elts _ _]; [done|].
      simpl in Hsup. apply andb_true_iff in Hsup as [Ho _].
      simpl. by rewrite (supported_not_IS_CHAR o Ho). }
    exists (PList elts). split; [by apply JuliaUnbox_internal_array|].
    split; [|by apply JuliaBox_internal_PList].
    cbn [supported]. by rewrite Hstring, Hsup.
Qed.

(** ** Integers of every width *)

Lemma INTOBJ_INT_sint62 (i : Z) : INTOBJ_INT i = IntObj (sint 62 i).
Proof.
  unfold INTOBJ_INT, sint. f_equal.
  rewrite Z.shiftl_mul_pow2, Z.shiftr_div_pow2 by lia.
  change (2 ^ (64 - 1)) with 9223372036854775808.
  change (2 ^ 64) with 18446744073709551616.
  change (2 ^ (62 - 1)) with 2305843009213693952.
  change (2 ^ 62) with 4611686018427387904.
  change (2 ^ 2) with 4.
  pose proof (Z.div_mod (i + 2305843009213693952) 4611686018427387904) as Hdm.
  pose proof (Z.mod_pos_bound (i + 2305843009213693952) 4611686018427387904) as Hr.
  set (k := (i + 2305843009213693952) / 4611686018427387904) in *.
  set (r := (i + 2305843009213693952) mod 4611686018427387904) in *.
  assert ((i * 4 + 1 + 9223372036854775808) mod 18446744073709551616 = 4 * r + 1)
    as ->.
  { symmetry. apply (Z.mod_unique_pos _ _ k); lia. }
  symmetry. apply (Z.div_unique_pos _ _ _ 1); lia.
Qed.

(** X10: for a guest integer of any of the eight types, of value [n]:
    [JuliaUnbox_internal] returns the immediate integer whose value
    is the low 62 bits of [n], read as a signed number; that is [n]
    exactly when [n] is within [- 2 ^ 61 .. 2 ^ 61 - 1]; and boxing
    the result gives an [Int64], whatever the type was. *)
Theorem JuliaUnbox_internal_integer_62_bits (v : jl_value) (n : Z) (bounds : Z * Z) :
  jl_integer v = Some (n, bounds) ->
  JuliaUnbox_internal v = Some (IntObj (sint 62 n)) /\
  (sint 62 n = n <-> - 2 ^ 61 <= n < 2 ^ 61) /\
  JuliaBox_internal (IntObj (sint 62 n)) = Some (jl_int64 (sint 62 n)).
Proof.
  intros Hint. split; [|split; [|reflexivity]].
  - destruct v; try discriminate; simpl in Hint; injection Hint as <- _;
      simpl; f_equal; apply INTOBJ_INT_sint62.
  - unfold sint.
    change (2 ^ (62 - 1)) with 2305843009213693952.
    change (2 ^ 62) with 4611686018427387904.
    change (2 ^ 61) with 2305843009213693952.
    pose proof (Z.mod_pos_bound (n + 2305843009213693952) 4611686018427387904).
    split.
    + intros Heq. lia.
    + intros Hn. rewrite Z.mod_small by lia. lia.
Qed.

(** ** The anchor table along every run *)

Lemma slot_count_do_event (e : host_event) (w w' : world) :
  do_event e w = Some w' ->
  (length (GAP_MEMORY_STORAGE_INTS (table w)) + length (live w)
   = length (GAP_MEMORY_STORAGE (table w)) + 1)%nat ->
  (length (GAP_MEMORY_STORAGE_INTS (table w')) + length (live w')
   = length (GAP_MEMORY_STORAGE (table w')) + 1)%nat /\
  length (GAP_MEMORY_STORAGE (table w')) =
    Nat.max (length (GAP_MEMORY_STORAGE (table w))) (length (live w')).
Proof.
  destruct e as [C|k]; simpl.
  - destruct (NewJuliaObj C (table w)) as [[o st']|] eqn:Hnew; [|done].
    intros [= <-] Hcount. simpl.
    apply NewJuliaObj_Some in Hnew as (ints & position & _ & Hints & _ & ->).
    rewrite Hints, length_app in Hcount. simpl in Hcount.
    destruct (decide (ints = [])) as [->|Hne]; simpl;
      rewrite length_julia_array_setindex, ?length_app; simpl in *; [lia|].
    destruct ints; [done|]. simpl in *. lia.
  - destruct (live w !! k) as [val|] eqn:Hk; [|done].
    destruct val; try done.
    rewrite JuliaObjFreeFunc_eq. intros [= <-] Hcount. simpl.
    rewrite length_julia_array_setindex, length_app, length_delete by eauto.
    apply lookup_lt_Some in Hk. simpl. lia.
Qed.

Lemma slot_count_run_events (es : list host_event) (w w' : world) :
  run_events es w = Some w' ->
  (length (GAP_MEMORY_STORAGE_INTS (table w)) + length (live w)
   = length (GAP_MEMORY_STORAGE (table w)) + 1)%nat ->
  (length (GAP_MEMORY_STORAGE_INTS (table w')) + length (live w')
   = length (GAP_MEMORY_STORAGE (table w')) + 1)%nat.
Proof.
  revert w. induction es as [|e es IH]; intros w; simpl.
  - by intros [= ->].
  - destruct (do_event e w) as [w1|] eqn:He; [|done].
    intros Hrun Hcount. apply (IH w1 Hrun).
    by apply (slot_count_do_event e w w1 He).
Qed.

(** X11: along every run of handle creations and finalisations from
    [InitKernel], whatever its length: the free list always holds one
    index more than storage has cells without a live handle; and a
    further creation or finalisation leaves storage with as many
    cells as before, or with as many as there are live handles then,
    whichever is more: storage grows only when every cell is taken,
    and never shrinks. *)
Theorem storage_is_high_water_mark (es : list host_event) (e : host_event)
    (w w' : world) :
  run_events es init_world = Some w ->
  do_event e w = Some w' ->
  (length (GAP_MEMORY_STORAGE_INTS (table w)) + length (live w)
   = length (GAP_MEMORY_STORAGE (table w)) + 1)%nat /\
  length (GAP_MEMORY_STORAGE (table w')) =
    Nat.max (length (GAP_MEMORY_STORAGE (table w))) (length (live w')).
Proof.
  intros Hrun He.
  assert (length (GAP_MEMORY_STORAGE_INTS (table w)) + length (live w)
          = length (GAP_MEMORY_STORAGE (table w)) + 1)%nat as Hcount.
  { by apply (slot_count_run_events es init_world w Hrun). }
  split; [exact Hcount|].
  by destruct (slot_count_do_event e w w' He Hcount).
Qed.

Lemma storage_is_high_water_mark_witness :
  let w := mk_world (mk_table [jl_int64 0; jl_bool true] [3; 1])
                    [JuliaObj (jl_bool true) 2] in
  let w' := mk_world (mk_table [jl_nothing; jl_bool true] [3])
                     [JuliaObj jl_nothing 1; JuliaObj (jl_bool true) 2] in
  (length (GAP_MEMORY_STORAGE_INTS (table w)) + length (live w)
   = length (GAP_MEMORY_STORAGE (table w)) + 1)%nat /\
  length (GAP_MEMORY_STORAGE (table w')) =
    Nat.max (length (GAP_MEMORY_STORAGE (table w))) (length (live w')).
Proof.
  intros w w'.
  apply (storage_is_high_water_mark
           [ev_NewJuliaObj (jl_string "a"); ev_NewJuliaObj (jl_bool true); ev_collect 1]
           (ev_NewJuliaObj jl_nothing) w w').
  - reflexivity.
  - reflexivity.
Defined.

(** X12: in every state reached from [InitKernel] by handle creations
    and finalisations, storage being shorter than [INT_MAX]: no two
    live handles hold the same index, and the occupied indices are
    exactly the indices of the live handles. *)
Theorem occupied_slots_are_live_handles (es : list host_event) (w : world) :
  run_events es init_world = Some w ->
  fits_int (table w) ->
  NoDup (handle_pos <$> live w) /\
  occupied (table w) = list_to_set (handle_pos <$> live w).
Proof.
  intros Hrun Hfits.
  pose proof (slot_count_run_events es init_world w Hrun eq_refl) as Hcount.
  destruct (table_inv_reachable es w Hrun Hfits)
    as [(released & Hints & Hnodup & Hrange) _].
  set (len := length (GAP_MEMORY_STORAGE (table w))) in *.
  split; [by apply NoDup_app in Hnodup as (_ & _ & ?)|].
  assert (released ++ (handle_pos <$> live w) ≡ₚ seqZ 1 (Z.of_nat len)) as Hperm.
  { apply submseteq_length_Permutation.
    - apply NoDup_submseteq; [done|]. intros x Hx.
      rewrite Forall_forall in Hrange. apply Hrange in Hx.
      apply elem_of_seqZ. lia.
    - rewrite length_seqZ, length_app, length_fmap.
      rewrite Hints in Hcount. simpl in Hcount. lia. }
  apply set_eq. intros x.
  rewrite elem_of_occupied, elem_of_list_to_set, Hints. fold len.
  rewrite elem_of_cons.
  assert (x ∈ seqZ 1 (Z.of_nat len) <-> 1 <= x <= Z.of_nat len) as Hseq
    by (rewrite elem_of_seqZ; lia).
  rewrite <- Hperm, elem_of_app in Hseq.
  apply NoDup_app in Hnodup as (_ & Hdisjoint & _).
  split.
  - intros [Hx Hnot]. apply Hseq in Hx as [Hx|Hx]; [|done].
    destruct Hnot. by right.
  - intros Hx. split; [apply Hseq; by right|].
    intros [->|Hrel]; [|by apply (Hdisjoint x)].
    assert (1 <= Z.of_nat len + 1 <= Z.of_nat len) by (apply Hseq; by right). lia.
Qed.

Lemma occupied_slots_are_live_handles_witness :
  let w := mk_world (mk_table [jl_string "a"; jl_int64 0; jl_nothing] [4; 2])
                    [JuliaObj jl_nothing 3; JuliaObj (jl_string "a") 1] in
  NoDup (handle_pos <$> live w) /\
  occupied (table w) = list_to_set (handle_pos <$> live w).
Proof.
  intros w.
  apply (occupied_slots_are_live_handles
           [ev_NewJuliaObj (jl_string "a"); ev_NewJuliaObj (jl_bool true);
            ev_NewJuliaObj jl_nothing; ev_collect 1] w).
  - reflexivity.
  - unfold fits_int, INT_MAX. simpl. lia.
Defined.

Lemma free_cells_do_event (e : host_event) (w w' : world) :
  table_inv w -> fits_int (table w) ->
  free_cells_hold_sentinel (table w) ->
  do_event e w = Some w' ->
  free_cells_hold_sentinel (table w').
Proof.
  intros [(released & Hints & Hnodup & Hrange) Hlive] Hfits Hfree.
  unfold fits_int in Hfits.
  set (len := length (GAP_MEMORY_STORAGE (table w))) in *.
  destruct e as [C|k]; simpl.
  - destruct (NewJuliaObj C (table w)) as [[o st']|] eqn:Hnew; [|done].
    intros [= <-]. simpl.
    apply NewJuliaObj_Some in Hnew as (ints & position & _ & Hints' & _ & ->).
    rewrite Hints in Hints'.
    destruct released as [|p released _] using rev_ind.
    + destruct ints as [|? ints]; [|by destruct ints].
      simpl in Hints'. injection Hints' as <-.
      rewrite decide_True by done. intros i Hi. simpl in *.
      rewrite length_julia_array_setindex, length_app. simpl. fold len.
      apply list_elem_of_singleton in Hi as ->.
      rewrite (sint32_int (Z.of_nat len + 1)) by int_range.
      pose proof (sint32_succ_fresh (Z.of_nat len + 1)). int_range.
    + assert (ints = (Z.of_nat len + 1) :: released /\ position = p) as [-> ->].
      { change ((Z.of_nat len + 1) :: released ++ [p])
          with (((Z.of_nat len + 1) :: released) ++ [p]) in Hints'.
        by apply app_inj_tail in Hints' as [<- <-]. }
      rewrite decide_False by done. intros i Hi. simpl in *.
      rewrite length_julia_array_setindex. fold len. intros Hrange_i.
      apply elem_of_cons in Hi as [->|Hi]; [lia|].
      apply NoDup_app in Hnodup as (Hnodup & _ & _).
      apply NoDup_app in Hnodup as (_ & Hfresh & _).
      rewrite julia_array_getindex_setindex, bool_decide_false.
      * apply Hfree; [|done]. rewrite Hints. right. apply elem_of_app. by left.
      * intros ->. apply (Hfresh p Hi). left.
  - destruct (live w !! k) as [val|] eqn:Hk; [|done].
    rewrite Forall_forall in Hlive.
    destruct (Hlive val (list_elem_of_lookup_2 _ _ _ Hk)) as [-> _].
    rewrite JuliaObjFreeFunc_eq. intros [= <-] i Hi. simpl in *.
    rewrite length_julia_array_setindex. fold len. intros Hrange_i.
    rewrite julia_array_getindex_setindex.
    case_bool_decide as Heq.
    + subst i.
      by destruct (getindex_is_Some (GAP_MEMORY_STORAGE (table w)) _ Hrange_i) as [y ->].
    + apply Hfree; [|done].
      apply elem_of_app in Hi as [Hi|Hi]; [done|].
      by apply list_elem_of_singleton in Hi.
Qed.

Lemma free_cells_run_events (es : list host_event) (w w' : world) :
  table_inv w -> free_cells_hold_sentinel (table w) ->
  run_events es w = Some w' -> fits_int (table w') ->
  free_cells_hold_sentinel (table w').
Proof.
  revert w. induction es as [|e es IH]; intros w Hinv Hfree; simpl.
  - by intros [= <-].
  - destruct (do_event e w) as [w1|] eqn:He; [|done].
    intros Hrun Hfits.
    pose proof (run_events_length es w1 w' Hrun) as Hlen1.
    pose proof (do_event_length e w w1 He) as Hlen.
    apply (IH w1); [| |done|done].
    + apply (table_inv_do_event e w w1 Hinv He). unfold fits_int in *. lia.
    + apply (free_cells_do_event e w w1 Hinv); [|done|done].
      unfold fits_int in *. lia.
Qed.

(** X13: in every state reached from [InitKernel] by handle creations
    and finalisations, storage being shorter than [INT_MAX]: every
    cell whose index is on the free list holds the sentinel; no
    guest value stays in storage once its handle is finalised. *)
Theorem released_cells_hold_sentinel (es : list host_event) (w : world) (i : Z) :
  run_events es init_world = Some w ->
  fits_int (table w) ->
  i ∈ GAP_MEMORY_STORAGE_INTS (table w) ->
  1 <= i <= Z.of_nat (length (GAP_MEMORY_STORAGE (table w))) ->
  julia_array_getindex (GAP_MEMORY_STORAGE (table w)) i = Some (jl_box_int64 0).
Proof.
  intros Hrun Hfits.
  apply (free_cells_run_events es init_world w table_inv_init); [|done|done].
  intros j Hj Hrange. simpl in Hrange. lia.
Qed.

Lemma released_cells_hold_sentinel_witness :
  julia_array_getindex [jl_string "a"; jl_int64 0; jl_nothing] 2 = Some (jl_box_int64 0).
Proof.
  apply (released_cells_hold_sentinel
           [ev_NewJuliaObj (jl_string "a"); ev_NewJuliaObj (jl_bool true);
            ev_NewJuliaObj jl_nothing; ev_collect 1]
           (mk_world (mk_table [jl_string "a"; jl_int64 0; jl_nothing] [4; 2])
                     [JuliaObj jl_nothing 3; JuliaObj (jl_string "a") 1]) 2).
  - reflexivity.
  - unfold fits_int, INT_MAX. simpl. lia.
  - apply list_elem_of_In. simpl. right. left. reflexivity.
  - simpl. lia.
Defined.

(** ** One creation, one finalisation *)

(** X14: finalising a handle and then creating one, on a table with a
    non-empty free list: the new handle receives the index of the
    finalised one; the free list and the length of storage are as
    before the two calls; and the one cell that differs is the cell
    at that index, which, when storage has it, now holds the new
    guest value. *)
Theorem finalise_then_create_reuses_index (p C : jl_value) (list_number : Z)
    (st : anchor_table) :
  C ≠ NULL ->
  GAP_MEMORY_STORAGE_INTS st ≠ [] ->
  exists st1 st2,
    JuliaObjFreeFunc (JuliaObj p list_number) st = Some (tt, st1) /\
    NewJuliaObj C st1 = Some (JuliaObj C list_number, st2) /\
    GAP_MEMORY_STORAGE_INTS st2 = GAP_MEMORY_STORAGE_INTS st /\
    length (GAP_MEMORY_STORAGE st2) = length (GAP_MEMORY_STORAGE st) /\
    forall j,
      julia_array_getindex (GAP_MEMORY_STORAGE st2) j =
      if bool_decide (j = list_number)
      then (fun _ => C) <$> julia_array_getindex (GAP_MEMORY_STORAGE st) j
      else julia_array_getindex (GAP_MEMORY_STORAGE st) j.
Proof.
  intros HC Hne. rewrite JuliaObjFreeFunc_eq.
  eexists _, _. split; [reflexivity|].
  rewrite (NewJuliaObj_snoc C
             (mk_table (julia_array_setindex (GAP_MEMORY_STORAGE st)
                          (jl_box_int64 0) list_number)
                       (GAP_MEMORY_STORAGE_INTS st ++ [list_number]))
             (GAP_MEMORY_STORAGE_INTS st) list_number HC eq_refl).
  rewrite decide_False by done.
  split; [reflexivity|]. simpl. split; [done|].
  split; [by rewrite !length_julia_array_setindex|].
  intros j. rewrite !julia_array_getindex_setindex.
  case_bool_decide; [|done].
  by destruct (julia_array_getindex (GAP_MEMORY_STORAGE st) j).
Qed.

Lemma finalise_then_create_reuses_index_witness :
  exists st1 st2,
    JuliaObjFreeFunc (JuliaObj (jl_bool true) 1) (mk_table [jl_bool true] [2])
      = Some (tt, st1) /\
    NewJuliaObj (jl_string "b") st1 = Some (JuliaObj (jl_string "b") 1, st2) /\
    GAP_MEMORY_STORAGE_INTS st2 = [2] /\
    length (GAP_MEMORY_STORAGE st2) = 1%nat /\
    forall j,
      julia_array_getindex (GAP_MEMORY_STORAGE st2) j =
      if bool_decide (j = 1)
      then (fun _ => jl_string "b") <$> julia_array_getindex [jl_bool true] j
      else julia_array_getindex [jl_bool true] j.
Proof.
  apply (finalise_then_create_reuses_index (jl_bool true) (jl_string "b") 1
           (mk_table [jl_bool true] [2])).
  - discriminate.
  - simpl. discriminate.
Defined.

(** X15: [NewJuliaObj], whenever it returns, on any table: the handle
    holds the guest value and the last index of the free list;
    storage has as many cells as before or one more; and no cell
    that storage had, other than the cell at the handle's index, has
    changed. *)
Theorem NewJuliaObj_writes_one_cell (C : jl_value) (st st' : anchor_table) (o : Obj) :
  NewJuliaObj C st = Some (o, st') ->
  exists position,
    o = JuliaObj C position /\
    last (GAP_MEMORY_STORAGE_INTS st) = Some position /\
    (length (GAP_MEMORY_STORAGE st) <= length (GAP_MEMORY_STORAGE st')
     <= length (GAP_MEMORY_STORAGE st) + 1)%nat /\
    forall j,
      1 <= j <= Z.of_nat (length (GAP_MEMORY_STORAGE st)) ->
      j ≠ position ->
      julia_array_getindex (GAP_MEMORY_STORAGE st') j =
      julia_array_getindex (GAP_MEMORY_STORAGE st) j.
Proof.
  intros Hnew.
  apply NewJuliaObj_Some in Hnew as (ints & position & _ & Hints & -> & ->).
  exists position. split; [done|]. split; [by rewrite Hints, last_snoc|].
  destruct (decide (ints = [])); simpl;
    rewrite length_julia_array_setindex, ?length_app; simpl; (split; [lia|]);
    intros j Hj Hneq;
    rewrite julia_array_getindex_setindex, bool_decide_false by done; [|done].
  fold (julia_array_push (GAP_MEMORY_STORAGE st) (jl_box_int64 0)).
  rewrite julia_array_getindex_push. by rewrite bool_decide_false by lia.
Qed.

Lemma NewJuliaObj_writes_one_cell_witness :
  exists position,
    JuliaObj jl_nothing 1 = JuliaObj jl_nothing position /\
    last [3; 1] = Some position /\
    (2 <= length [jl_nothing; jl_bool true] <= 2 + 1)%nat /\
    forall j,
      1 <= j <= 2 ->
      j ≠ position ->
      julia_array_getindex [jl_nothing; jl_bool true] j =
      julia_array_getindex [jl_int64 0; jl_bool true] j.
Proof.
  apply (NewJuliaObj_writes_one_cell jl_nothing
           (mk_table [jl_int64 0; jl_bool true] [3; 1])
           (mk_table [jl_nothing; jl_bool true] [3])
           (JuliaObj jl_nothing 1)).
  reflexivity.
Defined.

(** ** The call surface *)

(** X16: each of the four call helpers, given handles of either kind
    (word 0 is read the same way in the callee's and in an argument's
    place, so a handle from [JuliaFunction] serves as well as a value
    handle): when this one application of the callee to these
    arguments gives a value, not the null reference of a raised
    exception, and leaves the anchor table in a state that handle
    creations and finalisations from [InitKernel] produce, storage
    being shorter than [INT_MAX], the helper returns a handle on that
    value at the index popped from the free list, an index that was
    not occupied and is the one index newly occupied, with the value
    in its cell.  Nothing is asked of the callee at other arguments
    or in other states. *)
Theorem JuliaCallFunc_anchors_result
    (jl_call : jl_value -> list jl_value -> anchor_table -> jl_value * anchor_table)
    (jl_get_function : string -> jl_value)
    (es : list host_event) (w : world) (st : anchor_table) (name : string)
    (func arg1 arg2 arg3 : Obj) (f a1 a2 a3 result : jl_value) :
  run_events es init_world = Some w ->
  fits_int (table w) ->
  GET_JULIA_FUNC func = Some f ->
  ADDR_OBJ_0 arg1 = Some a1 ->
  ADDR_OBJ_0 arg2 = Some a2 ->
  ADDR_OBJ_0 arg3 = Some a3 ->
  result ≠ NULL ->
  (jl_call f [] st = (result, table w) ->
   anchors_result w (JuliaCallFunc0Arg jl_call func st) result) /\
  (jl_call f [a1] st = (result, table w) ->
   anchors_result w (JuliaCallFunc1Arg jl_call func arg1 st) result) /\
  (jl_call f [a1; a2] st = (result, table w) ->
   anchors_result w (JuliaCallFunc2Arg jl_call func arg1 arg2 st) result) /\
  (jl_call f [a1; a2; a3] st = (result, table w) ->
   anchors_result w (JuliaCallFunc3Arg jl_call func arg1 arg2 arg3 st) result) /\
  (jl_call (jl_get_function (CSTR_STRING name)) [f] st = (result, table w) ->
   anchors_result w
     (JuliaCallFunc1Arg jl_call (JuliaFunction jl_get_function name) func st)
     result).
Proof.
  intros Hrun Hfits Hf Ha1 Ha2 Ha3 Hresult.
  pose proof (table_inv_reachable es w Hrun Hfits) as Hinv.
  assert (anchors_result w (NewJuliaObj result (table w)) result) as Hanchor.
  { destruct (NewJuliaObj_occupied w result Hinv Hfits Hresult)
      as (position & st' & Hnew & Hfree & Hocc).
    destruct (NewJuliaObj_cell w result _ st' Hinv Hnew)
      as (position' & [= <-] & Hlast & Hcell).
    by exists position, st'. }
  unfold JuliaCallFunc0Arg, JuliaCallFunc1Arg, JuliaCallFunc2Arg, JuliaCallFunc3Arg.
  unfold GET_JULIA_FUNC in *. cbn [JuliaFunction NewJuliaFunc ADDR_OBJ_0].
  rewrite Hf, Ha1, Ha2, Ha3.
  repeat split; intros ->; exact Hanchor.
Qed.

Lemma JuliaCallFunc_anchors_result_witness :
  let jl_call :=
    fun (callee : jl_value) (args : list jl_value) (st : anchor_table) =>
      (jl_string "r", st) in
  let jl_get_function := fun name => jl_string name in
  let st := mk_table [jl_int64 0; jl_bool true] [3; 1] in
  let w := mk_world st [JuliaObj (jl_bool true) 2] in
  let func := JuliaFuncObj (jl_other 7) in
  let arg := JuliaObj (jl_bool true) 2 in
  (jl_call (jl_other 7) [] st = (jl_string "r", table w) ->
   anchors_result w (JuliaCallFunc0Arg jl_call func st) (jl_string "r")) /\
  (jl_call (jl_other 7) [jl_bool true] st = (jl_string "r", table w) ->
   anchors_result w (JuliaCallFunc1Arg jl_call func arg st) (jl_string "r")) /\
  (jl_call (jl_other 7) [jl_bool true; jl_bool true] st = (jl_string "r", table w) ->
   anchors_result w (JuliaCallFunc2Arg jl_call func arg arg st) (jl_string "r")) /\
  (jl_call (jl_other 7) [jl_bool true; jl_bool true; jl_bool true] st =
     (jl_string "r", table w) ->
   anchors_result w (JuliaCallFunc3Arg jl_call func arg arg arg st) (jl_string "r")) /\
  (jl_call (jl_get_function (CSTR_STRING "sqrt")) [jl_other 7] st =
     (jl_string "r", table w) ->
   anchors_result w
     (JuliaCallFunc1Arg jl_call (JuliaFunction jl_get_function "sqrt") func st)
     (jl_string "r")).
Proof.
  intros jl_call jl_get_function st w func arg.
  apply (JuliaCallFunc_anchors_result jl_call jl_get_function
           [ev_NewJuliaObj (jl_string "a"); ev_NewJuliaObj (jl_bool true); ev_collect 1]
           w st "sqrt" func arg arg arg (jl_other 7)
           (jl_bool true) (jl_bool true) (jl_bool true) (jl_string "r")).
  - reflexivity.
  - unfold fits_int, INT_MAX. simpl. lia.
  - reflexivity.
  - reflexivity.
  - reflexivity.
  - reflexivity.
  - discriminate.
Defined.

(** ** Values that are not converted *)

Lemma JuliaUnbox_internal_unsupported_witness :
  JuliaUnbox_internal jl_nothing = Some Fail.
Proof.
  apply (JuliaUnbox_internal_unsupported jl_nothing).
  - discriminate.
  - reflexivity.
  - reflexivity.
Defined.

(** ** Creations in a row, finalisations in a row *)

Lemma julia_array_setindex_fresh (a : list jl_value) (C : jl_value) :
  julia_array_setindex (a ++ [jl_box_int64 0]) C (Z.of_nat (length a) + 1) = a ++ [C].
Proof.
  unfold julia_array_setindex.
  rewrite bool_decide_true by (rewrite length_app; simpl; lia).
  replace (Z.to_nat (Z.of_nat (length a) + 1 - 1)) with (length a + 0)%nat by lia.
  by rewrite insert_app_r.
Qed.

Lemma run_creations (Cs : list jl_value) :
  Forall (fun C => C ≠ NULL) Cs ->
  forall (a : list jl_value) (acc : list Obj),
    Z.of_nat (length a + length Cs) < INT_MAX ->
    run_events (ev_NewJuliaObj <$> Cs)
      (mk_world (mk_table a [Z.of_nat (length a) + 1]) acc) =
    Some (mk_world (mk_table (a ++ Cs) [Z.of_nat (length (a ++ Cs)) + 1])
                   (fresh_handles (Z.of_nat (length a) + 1) Cs acc)).
Proof.
  induction 1 as [|C Cs HC _ IH]; intros a acc Hlen; simpl in *.
  - by rewrite app_nil_r.
  - rewrite (NewJuliaObj_snoc C (mk_table a [Z.of_nat (length a) + 1]) []
               (Z.of_nat (length a) + 1) HC eq_refl).
    rewrite decide_True by done. cbn [GAP_MEMORY_STORAGE].
    rewrite julia_array_setindex_fresh.
    rewrite (sint32_int (Z.of_nat (length a) + 1)) by int_range.
    rewrite sint32_int by int_range.
    specialize (IH (a ++ [C]) (JuliaObj C (Z.of_nat (length a) + 1) :: acc)).
    rewrite length_app in IH. simpl in IH.
    replace (Z.of_nat (length a + 1) + 1) with (Z.of_nat (length a) + 1 + 1) in IH by lia.
    refine (eq_trans (IH ltac:(lia)) _). by rewrite <- app_assoc.
Qed.

(** X19: creating handles for the guest values [Cs], one after the
    other, on the table that [InitKernel] leaves, fewer than
    [INT_MAX] of them and none finalised: storage is the list [Cs]
    itself, the [k]-th handle holds index [k], and the free list
    holds the one index past the end of storage. *)
Theorem creations_take_consecutive_indices (Cs : list jl_value) :
  Forall (fun C => C ≠ NULL) Cs ->
  Z.of_nat (length Cs) < INT_MAX ->
  run_events (ev_NewJuliaObj <$> Cs) init_world =
  Some (mk_world (mk_table Cs [Z.of_nat (length Cs) + 1]) (fresh_handles 1 Cs [])).
Proof.
  intros HCs Hlen. exact (run_creations Cs HCs [] [] Hlen).
Qed.

Lemma creations_take_consecutive_indices_witness :
  run_events (ev_NewJuliaObj <$> [jl_string "a"; jl_nothing; jl_int64 0]) init_world =
  Some (mk_world (mk_table [jl_string "a"; jl_nothing; jl_int64 0] [4])
                 [JuliaObj (jl_int64 0) 3; JuliaObj jl_nothing 2;
                  JuliaObj (jl_string "a") 1]).
Proof.
  apply (creations_take_consecutive_indices [jl_string "a"; jl_nothing; jl_int64 0]).
  - repeat constructor; discriminate.
  - unfold INT_MAX. simpl. lia.
Defined.

(** X20: the finaliser run twice on one handle, which GAP does not do:
    its index is then on the free list twice, and the next two
    handles created both receive it; storage keeps its length, the
    free list is as before the four calls, and the cell at that
    index, when storage has it, holds the value of the handle created
    last. *)
Theorem finalised_twice_index_handed_out_twice (p C1 C2 : jl_value)
    (list_number : Z) (st : anchor_table) :
  C1 ≠ NULL -> C2 ≠ NULL ->
  GAP_MEMORY_STORAGE_INTS st ≠ [] ->
  exists st1 st2 st3 st4,
    JuliaObjFreeFunc (JuliaObj p list_number) st = Some (tt, st1) /\
    JuliaObjFreeFunc (JuliaObj p list_number) st1 = Some (tt, st2) /\
    NewJuliaObj C1 st2 = Some (JuliaObj C1 list_number, st3) /\
    NewJuliaObj C2 st3 = Some (JuliaObj C2 list_number, st4) /\
    GAP_MEMORY_STORAGE_INTS st4 = GAP_MEMORY_STORAGE_INTS st /\
    length (GAP_MEMORY_STORAGE st4) = length (GAP_MEMORY_STORAGE st) /\
    julia_array_getindex (GAP_MEMORY_STORAGE st4) list_number =
      (fun _ => C2) <$> julia_array_getindex (GAP_MEMORY_STORAGE st) list_number.
Proof.
  intros HC1 HC2 Hne. rewrite JuliaObjFreeFunc_eq.
  eexists _, _, _, _. split; [reflexivity|].
  rewrite JuliaObjFreeFunc_eq. split; [reflexivity|]. simpl.
  match goal with
  | |- NewJuliaObj C1 ?st2 = _ /\ _ =>
      rewrite (NewJuliaObj_snoc C1 st2 (GAP_MEMORY_STORAGE_INTS st ++ [list_number])
                 list_number HC1 eq_refl)
  end.
  rewrite decide_False by (by destruct (GAP_MEMORY_STORAGE_INTS st)).
  split; [reflexivity|].
  match goal with
  | |- NewJuliaObj C2 ?st3 = _ /\ _ =>
      rewrite (NewJuliaObj_snoc C2 st3 (GAP_MEMORY_STORAGE_INTS st)
                 list_number HC2 eq_refl)
  end.
  rewrite decide_False by done.
  split; [reflexivity|]. simpl. split; [done|].
  split; [by rewrite !length_julia_array_setindex|].
  rewrite !julia_array_getindex_setindex, !bool_decide_true by done.
  by destruct (julia_array_getindex (GAP_MEMORY_STORAGE st) list_number).
Qed.

Lemma finalised_twice_index_handed_out_twice_witness :
  exists st1 st2 st3 st4,
    JuliaObjFreeFunc (JuliaObj (jl_bool true) 1) (mk_table [jl_bool true] [2])
      = Some (tt, st1) /\
    JuliaObjFreeFunc (JuliaObj (jl_bool true) 1) st1 = Some (tt, st2) /\
    NewJuliaObj (jl_string "a") st2 = Some (JuliaObj (jl_string "a") 1, st3) /\
    NewJuliaObj (jl_string "b") st3 = Some (JuliaObj (jl_string "b") 1, st4) /\
    GAP_MEMORY_STORAGE_INTS st4 = [2] /\
    length (GAP_MEMORY_STORAGE st4) = 1%nat /\
    julia_array_getindex (GAP_MEMORY_STORAGE st4) 1 =
      (fun _ => jl_string "b") <$> julia_array_getindex [jl_bool true] 1.
Proof.
  apply (finalised_twice_index_handed_out_twice (jl_bool true) (jl_string "a")
           (jl_string "b") 1 (mk_table [jl_bool true] [2])).
  - discriminate.
  - discriminate.
  - simpl. discriminate.
Defined.

End Layout.

(** * Instances

    The statements about [JuliaBox] hold for every content of the bag
    of a plain list of characters; the instances below take an empty
    bag. *)


Lemma JuliaBox_internal_unbound_inside_witness :
  let bag_chars := fun _ : list Obj => EmptyString in
  bound (PList [IntObj 1; PList [GAP_True; NullObj]]) = false /\
  JuliaBox_internal bag_chars (PList [IntObj 1; PList [GAP_True; NullObj]]) = None.
Proof.
  intros bag_chars. split; [reflexivity|].
  apply (JuliaBox_internal_unbound_inside bag_chars
           (PList [IntObj 1; PList [GAP_True; NullObj]])).
  reflexivity.
Defined.

Lemma JuliaBox_list_with_unsupported_entry_witness :
  let bag_chars := fun _ : list Obj => EmptyString in
  exists data position st',
    jl_array jl_any_type 1 [jl_int64 1; NULL] = jl_array jl_any_type 1 data /\
    NULL ∈ data /\
    length data = 2%nat /\
    JuliaBox bag_chars (PList [IntObj 1; LargeInt (2 ^ 70)]) InitKernel =
      Some (JuliaObj (jl_array jl_any_type 1 [jl_int64 1; NULL]) position, st') /\
    JuliaUnbox (JuliaObj (jl_array jl_any_type 1 [jl_int64 1; NULL]) position) = None.
Proof.
  intros bag_chars.
  apply (JuliaBox_list_with_unsupported_entry bag_chars
           [IntObj 1; LargeInt (2 ^ 70)] (LargeInt (2 ^ 70))
           (jl_array jl_any_type 1 [jl_int64 1; NULL]) InitKernel).
  - reflexivity.
  - apply list_elem_of_In. simpl. right. left. reflexivity.
  - reflexivity.
  - reflexivity.
  - simpl. discriminate.
Defined.

Lemma JuliaUnbox_JuliaBox_roundtrip_witness :
  let bag_chars := fun _ : list Obj => EmptyString in
  exists julia_ptr position st',
    JuliaBox bag_chars (PList [IntObj (-7); PList [GAP_False; StringObj "ab"]])
      InitKernel = Some (JuliaObj julia_ptr position, st') /\
    JuliaUnbox (JuliaObj julia_ptr position) =
      Some (PList [IntObj (-7); PList [GAP_False; StringObj "ab"]]).
Proof.
  intros bag_chars.
  apply (JuliaUnbox_JuliaBox_roundtrip bag_chars
           (PList [IntObj (-7); PList [GAP_False; StringObj "ab"]])
           InitKernel).
  - reflexivity.
  - simpl. discriminate.
Defined.

Lemma JuliaUnbox_JuliaBox_perm_witness :
  let bag_chars := fun _ : list Obj => EmptyString in
  (JuliaBox_internal bag_chars (Perm2 [1; 2; 0]) =
     Some (jl_array jl_uint16_type 1 (jl_uint16 <$> [1; 2; 0])) /\
   JuliaUnbox_internal (jl_array jl_uint16_type 1 (jl_uint16 <$> [1; 2; 0])) =
     Some (PList (IntObj <$> [1; 2; 0]))) /\
  (JuliaBox_internal bag_chars (Perm4 [1; 2; 0]) =
     Some (jl_array jl_uint32_type 1 (jl_uint32 <$> [1; 2; 0])) /\
   JuliaUnbox_internal (jl_array jl_uint32_type 1 (jl_uint32 <$> [1; 2; 0])) =
     Some (PList (IntObj <$> [1; 2; 0]))).
Proof.
  intros bag_chars.
  apply (JuliaUnbox_JuliaBox_perm bag_chars [1; 2; 0]).
  repeat constructor; lia.
Defined.

Lemma JuliaBox_JuliaUnbox_canonical_witness :
  let bag_chars := fun _ : list Obj => EmptyString in
  exists obj,
    JuliaUnbox_internal
      (jl_array jl_any_type 1 [jl_int64 5; jl_array jl_any_type 1 [jl_bool true]])
      = Some obj /\
    supported obj = true /\
    JuliaBox_internal bag_chars obj =
      Some (jl_array jl_any_type 1 [jl_int64 5; jl_array jl_any_type 1 [jl_bool true]]).
Proof.
  intros bag_chars.
  apply (JuliaBox_JuliaUnbox_canonical bag_chars
           (jl_array jl_any_type 1 [jl_int64 5; jl_array jl_any_type 1 [jl_bool true]])).
  reflexivity.
Defined.

Lemma JuliaUnbox_internal_integer_62_bits_witness :
  let bag_chars := fun _ : list Obj => EmptyString in
  JuliaUnbox_internal (jl_uint64 (2 ^ 64 - 1)) = Some (IntObj (sint 62 (2 ^ 64 - 1))) /\
  (sint 62 (2 ^ 64 - 1) = 2 ^ 64 - 1 <-> - 2 ^ 61 <= 2 ^ 64 - 1 < 2 ^ 61) /\
  JuliaBox_internal bag_chars (IntObj (sint 62 (2 ^ 64 - 1))) =
    Some (jl_int64 (sint 62 (2 ^ 64 - 1))).
Proof.
  intros bag_chars.
  apply (JuliaUnbox_internal_integer_62_bits bag_chars (jl_uint64 (2 ^ 64 - 1))
           (2 ^ 64 - 1) (0, 2 ^ 64)).
  reflexivity.
Defined.

Lemma JuliaBox_unsupported_witness :
  let bag_chars := fun _ : list Obj => EmptyString in
  JuliaBox bag_chars (LargeInt (2 ^ 70)) InitKernel = Some (Fail, InitKernel).
Proof.
  intros bag_chars.
  apply (JuliaBox_unsupported bag_chars (LargeInt (2 ^ 70)) InitKernel).
  - discriminate.
  - reflexivity.
Defined.
